(** * Compatibility headers of the Lind-Wasm ports of bash and nginx

    The repository consists of two C headers, [bash/wasm_compat.h] and
    [nginx/wasm_compat.h].  Their "program" is written in the language of
    the C preprocessor: conditionals on the macro table, [#define],
    [#undef], and a few declarations passed on to the compiler.

    The embedding is shallow: every directive is a function on the state
    of a translation unit, a header is the composition of its directives in
    source order, and the system headers it includes ([<sys/stat.h>],
    [<sched.h>], [<string.h>]), which belong to the sysroot and not to the
    repository, are parameters.  The replacement lists of the macros are
    kept as the token lists the source has, and a small interpreter for the
    C expressions that occur in them gives the macros their run-time
    meaning. *)

From stdpp Require Import gmap strings list fin_maps.

Open Scope string_scope.
Open Scope Z_scope.
Open Scope list_scope.

(** * The preprocessor *)

Module PP.

(** Punctuators that occur in the two headers, or in arguments handed to
    their macros. *)
Inductive punct :=
  LParen | RParen | Comma | Star | Slash | Dot | Semi | PlusPlus.

(** Preprocessing tokens: identifiers (keywords are identifiers to the
    preprocessor), numbers and punctuators. *)
Inductive token :=
| TId (x : string)
| TNum (n : Z)
| TP (p : punct).

#[export] Instance punct_eq_dec : EqDecision punct.
Proof. solve_decision. Defined.

#[export] Instance token_eq_dec : EqDecision token.
Proof. solve_decision. Defined.

(** A macro is object-like ([#define N repl]) or function-like
    ([#define N(params) repl]). *)
Inductive macro :=
| ObjLike (repl : list token)
| FunLike (params : list string) (repl : list token).

#[export] Instance macro_eq_dec : EqDecision macro.
Proof. solve_decision. Defined.

(** Types that occur in the declarations of the headers. *)
Inductive ctype :=
| TVoid
| TChar
| TULong
| TNamed (x : string)
| TConst (t : ctype)
| TPtr (t : ctype)
| TArray (t : ctype) (len : list token).

(** What a header hands to the compiler proper. *)
Inductive item :=
| ExternCOpen                      (* extern "C" {            *)
| ExternCClose                     (* }                       *)
| TypedefStruct (fields : list (string * ctype)) (name : string)
                                   (* typedef struct { .. } name; *)
| StaticInline (ret : ctype) (name : string)
               (params : list (ctype * string)) (body : list token).

(** Diagnostics of the kinds the claims speak about. *)
Inductive diag :=
| MacroRedefined (n : string)
| Redeclared (n : string).

(** State of a translation unit while it is being preprocessed. *)
Record cpp := Cpp {
  macros : gmap string macro;
  decls : list item;
  diags : list diag
}.

Definition directive := cpp → cpp.

Definition andthen (d1 d2 : directive) : directive := λ s, d2 (d1 s).

Definition skip : directive := λ s, s.

Definition defined (n : string) (s : cpp) : bool :=
  match macros s !! n with Some _ => true | None => false end.

(** [#ifdef n .. #endif] *)
Definition ifdef (n : string) (body : directive) : directive :=
  λ s, if defined n s then body s else s.

(** [#ifndef n .. #endif] *)
Definition ifndef (n : string) (body : directive) : directive :=
  λ s, if defined n s then s else body s.

(** Controlling expressions of [#if], as far as the headers use them. *)
Inductive cond :=
| Defined (n : string)
| Not (c : cond)
| And (c1 c2 : cond).

Fixpoint holds (c : cond) (s : cpp) : bool :=
  match c with
  | Defined n => defined n s
  | Not c => negb (holds c s)
  | And c1 c2 => holds c1 s && holds c2 s
  end.

(** [#if c .. #endif] *)
Definition if_ (c : cond) (body : directive) : directive :=
  λ s, if holds c s then body s else s.

(** [#define]: the new definition takes effect; defining a name again
    with a different definition is diagnosed (C11 6.10.3p2). *)
Definition define (n : string) (m : macro) : directive :=
  λ s, {| macros := <[n := m]> (macros s);
          decls := decls s;
          diags := match macros s !! n with
                   | Some m' => if decide (m' = m) then diags s
                                else diags s ++ [MacroRedefined n]
                   | None => diags s
                   end |}.

(** [#undef]: no effect when the name is not a macro. *)
Definition undef (n : string) : directive :=
  λ s, {| macros := delete n (macros s);
          decls := decls s;
          diags := diags s |}.

(** The name an item declares, if any. *)
Definition declares (it : item) : option string :=
  match it with
  | TypedefStruct _ n => Some n
  | StaticInline _ n _ _ => Some n
  | _ => None
  end.

Definition declared (n : string) (tu : list item) : bool :=
  existsb (λ it, bool_decide (declares it = Some n)) tu.

(** Text that is not a directive goes to the compiler.  Of the errors of
    the compiler only one kind is recorded: a second definition of a name
    among the items above.  Other declarations of the name (a prototype, a
    variable) are not items, and what the compiler says of them is not
    modelled. *)
Definition emit (it : item) : directive :=
  λ s, {| macros := macros s;
          decls := decls s ++ [it];
          diags := match declares it with
                   | Some n => if declared n (decls s)
                               then diags s ++ [Redeclared n]
                               else diags s
                   | None => diags s
                   end |}.

(** Keywords are never macro names (C11 7.1.2p4). *)
Definition keyword (x : string) : bool :=
  bool_decide (x ∈ ["void"; "char"; "unsigned"; "long"; "const";
                    "sizeof"; "return"; "static"; "inline";
                    "typedef"; "struct"]).

(** Replacement of the object-like macros in a token list, in one pass:
    the replacement lists are not scanned again.  This is the result of the
    preprocessor when no identifier of a replacement list that is used is
    itself a macro; the statements that use [expand] on a list with
    identifiers have that as a hypothesis. *)
Definition expand (tbl : gmap string macro) (ts : list token) : list token :=
  flat_map (λ t,
    match t with
    | TId x => if keyword x then [t]
               else match tbl !! x with
                    | Some (ObjLike repl) => repl
                    | _ => [t]
                    end
    | _ => [t]
    end) ts.

(** A [typedef] whose array lengths are written with macros: the lengths
    are expanded with the table of the place where the [typedef] stands.
    (The only macro the headers use in a declaration of their own is
    [CPU_SETSIZE], in an array length; the other identifiers of their
    declarations are taken as written.) *)
Fixpoint expand_type (tbl : gmap string macro) (t : ctype) : ctype :=
  match t with
  | TConst t => TConst (expand_type tbl t)
  | TPtr t => TPtr (expand_type tbl t)
  | TArray t len => TArray (expand_type tbl t) (expand tbl len)
  | _ => t
  end.

Definition typedef_struct (fields : list (string * ctype)) (name : string)
    : directive :=
  λ s, emit (TypedefStruct
               (map (λ f, (f.1, expand_type (macros s) f.2)) fields) name) s.

(** Invocation [name(arg_1, .., arg_n)] of a function-like macro: each
    parameter in the replacement list is replaced by the tokens of its
    argument.  [None] when [name] is not a function-like macro or the
    number of arguments is wrong. *)
Fixpoint bind_params (ps : list string) (args : list (list token))
    : option (list (string * list token)) :=
  match ps, args with
  | [], [] => Some []
  | p :: ps, a :: args => b ← bind_params ps args; Some ((p, a) :: b)
  | _, _ => None
  end.

Fixpoint arg_of (x : string) (b : list (string * list token))
    : option (list token) :=
  match b with
  | [] => None
  | (p, a) :: b => if String.eqb p x then Some a else arg_of x b
  end.

Definition substitute (b : list (string * list token)) (repl : list token)
    : list token :=
  flat_map (λ t,
    match t with
    | TId x => match arg_of x b with Some a => a | None => [t] end
    | _ => [t]
    end) repl.

Definition invoke (tbl : gmap string macro) (name : string)
    (args : list (list token)) : option (list token) :=
  match tbl !! name with
  | Some (FunLike ps repl) => b ← bind_params ps args; Some (substitute b repl)
  | _ => None
  end.

(** What a directive, in particular an included header, does not do to
    a macro name: [leaves d n] when [d] neither defines, redefines nor
    undefines [n]; [keeps d n] when [d] does not undefine [n]. *)
Definition leaves (d : directive) (n : string) : Prop :=
  ∀ s, macros (d s) !! n = macros s !! n.

Definition keeps (d : directive) (n : string) : Prop :=
  ∀ s, defined n s = true → defined n (d s) = true.

(** [untouched d ns]: [d] leaves every name of [ns]. *)
Definition untouched (d : directive) (ns : list string) : Prop :=
  Forall (leaves d) ns.

(** A translation unit before its first line. *)
Definition start : cpp := {| macros := ∅; decls := []; diags := [] |}.

End PP.

Export PP.

Declare Scope cpp_scope.
Delimit Scope cpp_scope with cpp.
Infix ">>>" := andthen (at level 61, left associativity) : cpp_scope.

(** * The C fragment of the replacement lists

    An interpreter for the expressions that the macros of the headers
    expand to and for the body of the one function they define, together
    with a few forms (variables, [*p], [i++]) that arguments handed to the
    macros may contain. *)

Module CSem.

Inductive cexpr :=
| EInt (n : Z)
| EVar (x : string)
| ECast (t : ctype) (e : cexpr)
| EDeref (e : cexpr)
| EPostInc (x : string)
| ESizeof (t : ctype)
| EMul (e1 e2 : cexpr)
| EDiv (e1 e2 : cexpr)
| ECall (f : string) (args : cexprs)
with cexprs :=
| ENil
| ECons (e : cexpr) (es : cexprs).

Inductive val :=
| VInt (n : Z)
| VPtr (a : Z)
| VVoid.

(** The null pointer, [(char * )0]. *)
Definition NULL : val := VPtr 0.

(** What [if] and [?:] make of a value. *)
Definition truthy (v : val) : bool :=
  match v with
  | VInt n => negb (n =? 0)
  | VPtr a => negb (a =? 0)
  | VVoid => false
  end.

(** Run-time state: the variables in scope and a byte-addressed memory
    whose domain is the set of allocated addresses. *)
Record cstate := CState {
  vars : gmap string val;
  mem : gmap Z Z
}.

(** ** Parsing *)

(** Type names: [void], [char], [unsigned long], a [const] prefix, a
    typedef name, each followed by any number of [*]. *)
Fixpoint parse_stars (t : ctype) (ts : list token) : ctype * list token :=
  match ts with
  | TP Star :: r => parse_stars (TPtr t) r
  | _ => (t, ts)
  end.

Definition parse_base (named : bool) (ts : list token)
    : option (ctype * list token) :=
  match ts with
  | TId x :: r =>
      if String.eqb x "void" then Some (TVoid, r)
      else if String.eqb x "char" then Some (TChar, r)
      else if String.eqb x "unsigned" then
        match r with
        | TId y :: r' => if String.eqb y "long" then Some (TULong, r') else None
        | _ => None
        end
      else if keyword x then None
      else if named then Some (TNamed x, r) else None
  | _ => None
  end.

Definition parse_type (named : bool) (ts : list token)
    : option (ctype * list token) :=
  match ts with
  | TId x :: r =>
      if String.eqb x "const" then
        '(t, r') ← parse_base named r;
        Some (parse_stars (TConst t) r')
      else
        '(t, r') ← parse_base named ts;
        Some (parse_stars t r')
  | _ => None
  end.

Definition expect (p : punct) (ts : list token) : option (list token) :=
  match ts with
  | TP q :: r => if decide (p = q) then Some r else None
  | _ => None
  end.

(** Recursive descent; [fuel] bounds the depth of the recursion, [None]
    also when it runs out. *)
Fixpoint parse_unary (fuel : nat) (ts : list token)
    : option (cexpr * list token) :=
  match fuel with
  | O => None
  | S f =>
      match ts with
      | TNum n :: r => Some (EInt n, r)
      | TP Star :: r => '(e, r') ← parse_unary f r; Some (EDeref e, r')
      | TP LParen :: r =>
          match parse_type false r with
          | Some (t, r') =>
              r'' ← expect RParen r';
              '(e, r3) ← parse_unary f r'';
              Some (ECast t e, r3)
          | None =>
              '(e, r') ← parse_expr f r;
              r'' ← expect RParen r';
              Some (e, r'')
          end
      | TId x :: r =>
          if String.eqb x "sizeof" then
            r1 ← expect LParen r;
            '(t, r2) ← parse_type true r1;
            r3 ← expect RParen r2;
            Some (ESizeof t, r3)
          else if keyword x then None
          else
            match r with
            | TP PlusPlus :: r' => Some (EPostInc x, r')
            | TP LParen :: TP RParen :: r' => Some (ECall x ENil, r')
            | TP LParen :: r' =>
                '(args, r'') ← parse_args f r';
                Some (ECall x args, r'')
            | _ => Some (EVar x, r)
            end
      | _ => None
      end
  end
with parse_tail (fuel : nat) (e : cexpr) (ts : list token)
    : option (cexpr * list token) :=
  match fuel with
  | O => None
  | S f =>
      match ts with
      | TP Star :: r => '(e', r') ← parse_unary f r; parse_tail f (EMul e e') r'
      | TP Slash :: r => '(e', r') ← parse_unary f r; parse_tail f (EDiv e e') r'
      | _ => Some (e, ts)
      end
  end
with parse_expr (fuel : nat) (ts : list token)
    : option (cexpr * list token) :=
  match fuel with
  | O => None
  | S f => '(e, r) ← parse_unary f ts; parse_tail f e r
  end
with parse_args (fuel : nat) (ts : list token)
    : option (cexprs * list token) :=
  match fuel with
  | O => None
  | S f =>
      '(e, r) ← parse_expr f ts;
      match r with
      | TP Comma :: r' => '(es, r'') ← parse_args f r'; Some (ECons e es, r'')
      | TP RParen :: r' => Some (ECons e ENil, r')
      | _ => None
      end
  end.

(** A whole token list as one expression, with fuel for twice its
    length. *)
Definition parse (ts : list token) : option cexpr :=
  '(e, r) ← parse_expr (2 * length ts + 2) ts;
  match r with [] => Some e | _ => None end.


(** ** Evaluation *)

Definition cast (t : ctype) (v : val) : option val :=
  match t, v with
  | TVoid, _ => Some VVoid
  | TPtr _, VInt n => Some (VPtr n)
  | TPtr _, VPtr a => Some (VPtr a)
  | _, _ => None
  end.

(** [memset]: [n] bytes from address [a] on; a write outside the allocated
    memory is a fault. *)
Fixpoint memset_bytes (n : nat) (a c : Z) (m : gmap Z Z) : option (gmap Z Z) :=
  match n with
  | O => Some m
  | S n =>
      match m !! a with
      | Some _ => memset_bytes n (a + 1) c (<[a := c `mod` 256]> m)
      | None => None
      end
  end.

(** A variable in scope hides a typedef name or a function of the same
    name; [sizeof] of such a name and a call through it are not
    modelled. *)
Definition in_scope (x : string) (st : cstate) : bool :=
  match vars st !! x with Some _ => true | None => false end.

Definition hidden (t : ctype) (st : cstate) : bool :=
  match t with
  | TNamed x => in_scope x st
  | _ => false
  end.

Definition builtin (f : string) (vs : list val) (st : cstate)
    : option (val * cstate) :=
  if String.eqb f "memset" then
    match vs with
    | [VPtr a; VInt c; VInt n] =>
        if decide (0 ≤ n) then
          m ← memset_bytes (Z.to_nat n) a c (mem st);
          Some (VPtr a, {| vars := vars st; mem := m |})
        else None
    | _ => None
    end
  else None.

Section Eval.

(** The sizes of the types, given by the target and the declarations in
    scope. *)
Variable sizeof : ctype → option Z.

(** [None] is a fault, an ill-formed program or a form that is not
    modelled.  Arguments are evaluated from left to right. *)
Fixpoint eval (e : cexpr) (st : cstate) : option (val * cstate) :=
  match e with
  | EInt n => Some (VInt n, st)
  | EVar x => v ← vars st !! x; Some (v, st)
  | ECast t e => '(v, st') ← eval e st; v' ← cast t v; Some (v', st')
  | EDeref e =>
      '(v, st') ← eval e st;
      match v with
      | VPtr a => b ← mem st' !! a; Some (VInt b, st')
      | _ => None
      end
  | EPostInc x =>
      match vars st !! x with
      | Some (VInt n) =>
          Some (VInt n, {| vars := <[x := VInt (n + 1)]> (vars st);
                           mem := mem st |})
      | _ => None
      end
  | ESizeof t =>
      if hidden t st then None else n ← sizeof t; Some (VInt n, st)
  | EMul e1 e2 =>
      '(v1, st1) ← eval e1 st;
      '(v2, st2) ← eval e2 st1;
      match v1, v2 with
      | VInt n1, VInt n2 => Some (VInt (n1 * n2), st2)
      | _, _ => None
      end
  | EDiv e1 e2 =>
      '(v1, st1) ← eval e1 st;
      '(v2, st2) ← eval e2 st1;
      match v1, v2 with
      | VInt n1, VInt n2 =>
          if decide (n2 = 0) then None else Some (VInt (n1 `quot` n2), st2)
      | _, _ => None
      end
  | ECall f args =>
      if in_scope f st then None
      else '(vs, st') ← eval_args args st; builtin f vs st'
  end
with eval_args (es : cexprs) (st : cstate) : option (list val * cstate) :=
  match es with
  | ENil => Some ([], st)
  | ECons e es =>
      '(v, st1) ← eval e st;
      '(vs, st2) ← eval_args es st1;
      Some (v :: vs, st2)
  end.

(** An expression given by its tokens. *)
Definition run (ts : list token) (st : cstate) : option (val * cstate) :=
  e ← parse ts; eval e st.

(** Statements of a function body: the tokens up to each [;]. *)
Fixpoint statements (cur : list token) (ts : list token) : list (list token) :=
  match ts with
  | [] => match cur with [] => [] | _ => [cur] end
  | TP Semi :: r => cur :: statements [] r
  | t :: r => statements (cur ++ [t]) r
  end.

(** Expression statements and [return e]. *)
Fixpoint exec (stmts : list (list token)) (st : cstate)
    : option (val * cstate) :=
  match stmts with
  | [] => Some (VVoid, st)
  | s :: rest =>
      match s with
      | TId x :: e =>
          if String.eqb x "return" then run e st
          else '(_, st') ← run s st; exec rest st'
      | _ => '(_, st') ← run s st; exec rest st'
      end
  end.

End Eval.


(** ** Sizes, declarations in scope, calls *)

Section Target.

(** [sizeof(unsigned long)] on the target, in bytes: 4 on wasm32, 8 where
    [long] has 64 bits.  The sysroot fixes it, the headers do not. *)
Variable sizeof_ulong : Z.

Definition sizeof_prim (t : ctype) : option Z :=
  match t with
  | TChar => Some 1
  | TULong => Some sizeof_ulong
  | _ => None
  end.

Definition no_vars : cstate := {| vars := ∅; mem := ∅ |}.

(** The value of an array length, an integer constant expression. *)
Definition array_len (len : list token) : option Z :=
  '(v, _) ← run sizeof_prim len no_vars;
  match v with VInt n => Some n | _ => None end.

Fixpoint sizeof_obj (t : ctype) : option Z :=
  match t with
  | TChar => Some 1
  | TULong => Some sizeof_ulong
  | TConst t => sizeof_obj t
  | TArray t len => n ← array_len len; k ← sizeof_obj t; Some (n * k)
  | _ => None
  end.

(** Size of a [struct] whose members need no padding between them (the
    one [struct] of the headers has a single member). *)
Fixpoint sizeof_fields (fs : list (string * ctype)) : option Z :=
  match fs with
  | [] => Some 0
  | f :: fs => k ← sizeof_obj f.2; n ← sizeof_fields fs; Some (k + n)
  end.

(** The declaration of a typedef name that is in force: the last one. *)
Fixpoint typedef_lookup (x : string) (tu : list item)
    : option (list (string * ctype)) :=
  match tu with
  | [] => None
  | it :: tu =>
      match typedef_lookup x tu with
      | Some fs => Some fs
      | None =>
          match it with
          | TypedefStruct fs n => if String.eqb n x then Some fs else None
          | _ => None
          end
      end
  end.

Definition sizeof_type (tu : list item) (t : ctype) : option Z :=
  match t with
  | TNamed x => fs ← typedef_lookup x tu; sizeof_fields fs
  | _ => sizeof_obj t
  end.

(** Number of bits an object of type [t] holds, with the 8-bit bytes the
    headers assume. *)
Definition bit_capacity (tu : list item) (t : ctype) : option Z :=
  n ← sizeof_type tu t; Some (8 * n).

Fixpoint function_lookup (f : string) (tu : list item)
    : option (list (ctype * string) * list token) :=
  match tu with
  | [] => None
  | it :: tu =>
      match function_lookup f tu with
      | Some d => Some d
      | None =>
          match it with
          | StaticInline _ n ps body =>
              if String.eqb n f then Some (ps, body) else None
          | _ => None
          end
      end
  end.

(** Call of a function defined in the translation unit: the parameters
    are the variables of the body, the caller's variables come back after
    the call, the memory is shared. *)
Definition call (tu : list item) (f : string) (args : list val) (st : cstate)
    : option (val * cstate) :=
  '(ps, body) ← function_lookup f tu;
  if decide (length ps = length args) then
    '(v, st') ← exec (sizeof_type tu) (statements [] body)
                  {| vars := list_to_map (zip (ps.*2) args); mem := mem st |};
    Some (v, {| vars := vars st; mem := mem st' |})
  else None.

(** An expression of the program text: preprocessed with the macro table,
    then evaluated.  Macro invocations are expanded by [invoke]. *)
Definition run_macro (s : cpp) (name : string) (args : list (list token))
    (st : cstate) : option (val * cstate) :=
  ts ← invoke (macros s) name args; run (sizeof_type (decls s)) ts st.

End Target.

(** ** File status *)

(** Modelled from the spec: the file-status structure of the sysroot, which
    is not part of the repository.  The spec describes the three
    timestamps as timespec-typed fields with a seconds component; the
    headers name them [st_atim], [st_mtim], [st_ctim] and [tv_sec]. *)
Record timespec := Timespec { tv_sec : Z; tv_nsec : Z }.

Record stat := Stat {
  st_size : Z;
  st_atim : timespec;
  st_mtim : timespec;
  st_ctim : timespec
}.

Inductive object :=
| OInt (n : Z)
| OTimespec (t : timespec)
| OStat (s : stat).

(** [o.f] *)
Definition member (o : object) (f : string) : option object :=
  match o with
  | OStat s =>
      if String.eqb f "st_size" then Some (OInt (st_size s))
      else if String.eqb f "st_atim" then Some (OTimespec (st_atim s))
      else if String.eqb f "st_mtim" then Some (OTimespec (st_mtim s))
      else if String.eqb f "st_ctim" then Some (OTimespec (st_ctim s))
      else None
  | OTimespec t =>
      if String.eqb f "tv_sec" then Some (OInt (tv_sec t))
      else if String.eqb f "tv_nsec" then Some (OInt (tv_nsec t))
      else None
  | OInt _ => None
  end.

(** [o.f1.f2...], the member names given as tokens. *)
Fixpoint member_path (o : object) (ts : list token) : option object :=
  match ts with
  | [TId f] => member o f
  | TId f :: TP Dot :: r => o' ← member o f; member_path o' r
  | _ => None
  end.

(** The expression [sb.name] of a program compiled with macro table
    [tbl]: [None] when it does not compile to the read of a number. *)
Definition read_member (tbl : gmap string macro) (sb : stat) (name : string)
    : option Z :=
  match member_path (OStat sb) (expand tbl [TId name]) with
  | Some (OInt n) => Some n
  | _ => None
  end.

(** The expression [sb.f1.f2...] of a program compiled with macro table
    [tbl], the designator given as it is written in the program. *)
Definition read_designator (tbl : gmap string macro) (sb : stat)
    (ts : list token) : option Z :=
  match member_path (OStat sb) (expand tbl ts) with
  | Some (OInt n) => Some n
  | _ => None
  end.

End CSem.

Export CSem.

(** * The headers *)

Coercion TId : string >-> token.
Coercion TNum : Z >-> token.
Coercion TP : punct >-> token.

(** Token lists, written as in the source. *)
Notation "⟦ x ; .. ; y ⟧" :=
  (@cons token x .. (@cons token y (@nil token)) ..)
  (at level 0, x at level 9, y at level 9) : cpp_scope.
Notation "⟦ ⟧" := (@nil token) (at level 0) : cpp_scope.

Open Scope cpp_scope.

(** The legacy names of the time fields with the field each stands for,
    and the macro both headers define for a legacy name. *)
Definition legacy_names : list (string * string) :=
  [("st_atime", "st_atim"); ("st_mtime", "st_mtim"); ("st_ctime", "st_ctim")].

(** The identifiers of the aliases' replacement lists: the names of the
    time fields and of their seconds. *)
Definition time_fields : list string :=
  ["st_atim"; "st_mtim"; "st_ctim"; "tv_sec"].

Definition seconds_of (field : string) : macro :=
  ObjLike ⟦ field; Dot; "tv_sec" ⟧.

(** What the stat aliases are for: under the macro table [tbl], a legacy
    name read on [sb] is read as the seconds of its time field are read,
    and the value is the [tv_sec] of the field. *)
Definition reads_seconds (tbl : gmap string macro) (sb : stat) : Prop :=
  (read_member tbl sb "st_atime"
     = read_designator tbl sb ⟦ "st_atim"; Dot; "tv_sec" ⟧ ∧
   read_member tbl sb "st_mtime"
     = read_designator tbl sb ⟦ "st_mtim"; Dot; "tv_sec" ⟧ ∧
   read_member tbl sb "st_ctime"
     = read_designator tbl sb ⟦ "st_ctim"; Dot; "tv_sec" ⟧) ∧
  (read_member tbl sb "st_atime" = Some (tv_sec (st_atim sb)) ∧
   read_member tbl sb "st_mtime" = Some (tv_sec (st_mtim sb)) ∧
   read_member tbl sb "st_ctime" = Some (tv_sec (st_ctim sb))).

(** ** bash/wasm_compat.h *)

Module Bash.
Section Header.

(** [#include <sys/stat.h>] *)
Variable sys_stat_h : directive.

Definition wasm_compat_h : directive :=
  ifndef "WASM_COMPAT_H" (
    define "WASM_COMPAT_H" (ObjLike ⟦ ⟧) >>>
    ifdef "__wasi__" (
      sys_stat_h >>>
      (* Map old stat field names to WASI fields (seconds only). *)
      ifndef "st_atime" (
        define "st_atime" (ObjLike ⟦ "st_atim"; Dot; "tv_sec" ⟧)) >>>
      ifndef "st_mtime" (
        define "st_mtime" (ObjLike ⟦ "st_mtim"; Dot; "tv_sec" ⟧)) >>>
      ifndef "st_ctime" (
        define "st_ctime" (ObjLike ⟦ "st_ctim"; Dot; "tv_sec" ⟧)))).

End Header.
End Bash.

(** ** nginx/wasm_compat.h *)

Module Nginx.
Section Header.

(** [#include <sched.h>] and [#include <string.h>] *)
Variables sched_h string_h : directive.

(** Sendfile Fallback *)
Definition sendfile_fallback : directive :=
  ifdef "NGX_HAVE_SENDFILE" (undef "NGX_HAVE_SENDFILE") >>>
  ifdef "NGX_HAVE_SENDFILE64" (undef "NGX_HAVE_SENDFILE64").

(** Time-related stat field mappings *)
Definition stat_time_fields : directive :=
  ifndef "st_atime" (
    define "st_atime" (ObjLike ⟦ "st_atim"; Dot; "tv_sec" ⟧)) >>>
  ifndef "st_mtime" (
    define "st_mtime" (ObjLike ⟦ "st_mtim"; Dot; "tv_sec" ⟧)) >>>
  ifndef "st_ctime" (
    define "st_ctime" (ObjLike ⟦ "st_ctim"; Dot; "tv_sec" ⟧)).

(** CPU Affinity Type Definitions *)
Definition CPU_ZERO : macro :=
  FunLike ["set"]
    ⟦ "memset"; LParen; LParen; "set"; RParen; Comma; 0; Comma;
      "sizeof"; LParen; "cpu_set_t"; RParen; RParen ⟧.

Definition CPU_SET : macro :=
  FunLike ["cpu"; "set"] ⟦ LParen; LParen; "void"; RParen; 0; RParen ⟧.

Definition CPU_ISSET : macro :=
  FunLike ["cpu"; "set"] ⟦ LParen; 0; RParen ⟧.

Definition cpu_set_type : directive :=
  ifndef "CPU_SETSIZE" (
    define "CPU_SETSIZE" (ObjLike ⟦ 1024 ⟧) >>>
    typedef_struct
      [("__bits",
        TArray TULong ⟦ "CPU_SETSIZE"; Slash; LParen; 8; Star;
                        "sizeof"; LParen; "unsigned"; "long"; RParen; RParen ⟧)]
      "cpu_set_t").

Definition cpu_affinity : directive :=
  cpu_set_type >>>
  ifndef "CPU_ZERO" (define "CPU_ZERO" CPU_ZERO) >>>
  ifndef "CPU_SET" (define "CPU_SET" CPU_SET) >>>
  ifndef "CPU_ISSET" (define "CPU_ISSET" CPU_ISSET).

(** crypt() stub *)
Definition crypt : item :=
  StaticInline (TPtr TChar) "crypt"
    [(TPtr (TConst TChar), "key"); (TPtr (TConst TChar), "salt")]
    ⟦ LParen; "void"; RParen; "key"; Semi;
      LParen; "void"; RParen; "salt"; Semi;
      (* Return NULL to indicate failure - passwords won't verify *)
      "return"; LParen; "char"; Star; RParen; 0; Semi ⟧.

Definition crypt_stub : directive :=
  if_ (And (Not (Defined "HAVE_CRYPT")) (Not (Defined "_CRYPT_H"))) (
    emit crypt >>>
    define "HAVE_CRYPT" (ObjLike ⟦ 1 ⟧)).

(** The part of the header before [#ifndef CPU_SETSIZE], lines 26 to 74
    of the source, as the first inclusion runs it. *)
Definition upto_includes : directive :=
  define "_WASM_COMPAT_H" (ObjLike ⟦ ⟧) >>>
  ifdef "__cplusplus" (emit ExternCOpen) >>>
  sendfile_fallback >>>
  stat_time_fields >>>
  sched_h >>>
  string_h.

Definition wasm_compat_h : directive :=
  ifndef "_WASM_COMPAT_H" (
    define "_WASM_COMPAT_H" (ObjLike ⟦ ⟧) >>>
    ifdef "__cplusplus" (emit ExternCOpen) >>>
    sendfile_fallback >>>
    stat_time_fields >>>
    sched_h >>>
    string_h >>>
    cpu_affinity >>>
    crypt_stub >>>
    ifdef "__cplusplus" (emit ExternCClose)).

End Header.

(** The [typedef] as the compiler sees it when [CPU_SETSIZE] is the
    header's own macro. *)
Definition cpu_set_t : item :=
  TypedefStruct
    [("__bits",
      TArray TULong ⟦ 1024; Slash; LParen; 8; Star;
                      "sizeof"; LParen; "unsigned"; "long"; RParen; RParen ⟧)]
    "cpu_set_t".

(** The macros of the affinity shim. *)
Definition shim_macros : list (string * macro) :=
  [("CPU_ZERO", CPU_ZERO); ("CPU_SET", CPU_SET); ("CPU_ISSET", CPU_ISSET)].

End Nginx.

(** * Vocabulary for the rest of the headers

    What an included header may be taken not to do to the declarations and
    the diagnostics, and the macro names each of the two headers has a
    directive for. *)

(** [silent d]: [d] adds no declaration and no diagnostic. *)
Definition silent (d : directive) : Prop :=
  ∀ s, decls (d s) = decls s ∧ diags (d s) = diags s.

(** [quiet d]: [d] adds no diagnostic. *)
Definition quiet (d : directive) : Prop := ∀ s, diags (d s) = diags s.

(** [appends d]: [d] keeps the declarations made before it. *)
Definition appends (d : directive) : Prop :=
  ∀ s, ∃ l, decls (d s) = decls s ++ l.

Definition bash_names : list string :=
  ["WASM_COMPAT_H"; "st_atime"; "st_mtime"; "st_ctime"].

Definition nginx_names : list string :=
  ["_WASM_COMPAT_H"; "NGX_HAVE_SENDFILE"; "NGX_HAVE_SENDFILE64";
   "st_atime"; "st_mtime"; "st_ctime";
   "CPU_SETSIZE"; "CPU_ZERO"; "CPU_SET"; "CPU_ISSET"; "HAVE_CRYPT"].

(** The names of the macros that a list of diagnostics reports as
    redefined, in order. *)
Definition macro_redefinitions (l : list diag) : list string :=
  flat_map (λ d, match d with MacroRedefined n => [n] | _ => [] end) l.

(** The redeclarations that the model records for the server header, of
    the two names the header declares: [cpu_set_t], declared by an item
    before line 76 while [CPU_SETSIZE] is not a macro, and [crypt], defined
    by an item before line 103 while neither [HAVE_CRYPT] nor [_CRYPT_H] is
    a macro. *)
Definition redeclarations (p q : cpp) : list diag :=
  (if negb (defined "CPU_SETSIZE" p) && declared "cpu_set_t" (decls p)
   then [Redeclared "cpu_set_t"] else []) ++
  (if negb (defined "HAVE_CRYPT" q) && negb (defined "_CRYPT_H" q)
      && declared "crypt" (decls q)
   then [Redeclared "crypt"] else []).

(** * Properties

    An inclusion, in the statements about what a header has done after it
    was included, is the inclusion that processes the text of the header:
    the first one in a translation unit, before which the include guard is
    not defined.  Later inclusions are the subject of the section on
    repeated inclusion.  What the statements need of the system headers,
    which are parameters, is said with [leaves], [keeps] and [untouched]. *)

(** ** The directives and the macro table *)

Section Frame.

Implicit Types (d : directive) (n m : string) (s : cpp).

Lemma defined_true n s : defined n s = true ↔ is_Some (macros s !! n).
Proof.
  unfold defined. destruct (macros s !! n).
  - split; [by eexists | done].
  - split; [done | by intros [? ?]].
Qed.

Lemma defined_false n s : defined n s = false ↔ macros s !! n = None.
Proof. unfold defined. by destruct (macros s !! n). Qed.

Lemma defined_eq n s s' :
  macros s' !! n = macros s !! n → defined n s' = defined n s.
Proof. unfold defined. by intros ->. Qed.

Lemma leaves_defined d n s : leaves d n → defined n (d s) = defined n s.
Proof. intros H. apply defined_eq, H. Qed.

Lemma leaves_keeps d n : leaves d n → keeps d n.
Proof. intros H s Hs. by rewrite leaves_defined. Qed.

Lemma leaves_skip n : leaves skip n.
Proof. done. Qed.

Lemma leaves_andthen d1 d2 n : leaves d1 n → leaves d2 n → leaves (d1 >>> d2) n.
Proof. intros H1 H2 s. unfold andthen. by rewrite H2, H1. Qed.

Lemma leaves_ifdef m d n : leaves d n → leaves (ifdef m d) n.
Proof. intros H s. unfold ifdef. destruct (defined m s); [apply H | done]. Qed.

Lemma leaves_ifndef m d n : leaves d n → leaves (ifndef m d) n.
Proof. intros H s. unfold ifndef. destruct (defined m s); [done | apply H]. Qed.

Lemma leaves_if c d n : leaves d n → leaves (if_ c d) n.
Proof. intros H s. unfold if_. destruct (holds c s); [apply H | done]. Qed.

Lemma leaves_define m x n : m ≠ n → leaves (define m x) n.
Proof. intros H s. simpl. by rewrite lookup_insert_ne. Qed.

Lemma leaves_undef m n : m ≠ n → leaves (undef m) n.
Proof. intros H s. simpl. by rewrite lookup_delete_ne. Qed.

Lemma leaves_emit it n : leaves (emit it) n.
Proof. done. Qed.

Lemma leaves_typedef_struct fs x n : leaves (typedef_struct fs x) n.
Proof. done. Qed.

Lemma keeps_andthen d1 d2 n : keeps d1 n → keeps d2 n → keeps (d1 >>> d2) n.
Proof. intros H1 H2 s Hs. unfold andthen. auto. Qed.

Lemma keeps_ifdef m d n : keeps d n → keeps (ifdef m d) n.
Proof. intros H s Hs. unfold ifdef. destruct (defined m s); auto. Qed.

Lemma keeps_ifndef m d n : keeps d n → keeps (ifndef m d) n.
Proof. intros H s Hs. unfold ifndef. destruct (defined m s); auto. Qed.

Lemma keeps_if c d n : keeps d n → keeps (if_ c d) n.
Proof. intros H s Hs. unfold if_. destruct (holds c s); auto. Qed.

Lemma keeps_define m x n : keeps (define m x) n.
Proof.
  intros s Hs. apply defined_true. apply defined_true in Hs. simpl.
  destruct (decide (m = n)) as [->|].
  - rewrite lookup_insert_eq. by eexists.
  - by rewrite lookup_insert_ne.
Qed.

Lemma keeps_undef m n : m ≠ n → keeps (undef m) n.
Proof. intros H. by apply leaves_keeps, leaves_undef. Qed.

Lemma keeps_emit it n : keeps (emit it) n.
Proof. apply leaves_keeps, leaves_emit. Qed.

Lemma keeps_typedef_struct fs x n : keeps (typedef_struct fs x) n.
Proof. apply leaves_keeps, leaves_typedef_struct. Qed.

(** [#define] and [#undef], seen through [defined]. *)
Lemma defined_define n x s : defined n (define n x s) = true.
Proof. apply defined_true. simpl. rewrite lookup_insert_eq. by eexists. Qed.

Lemma defined_undef n s : defined n (undef n s) = false.
Proof. apply defined_false. simpl. apply lookup_delete_eq. Qed.

Lemma lookup_define n x s : macros (define n x s) !! n = Some x.
Proof. simpl. apply lookup_insert_eq. Qed.

End Frame.

Create HintDb pp discriminated.

#[export] Hint Resolve leaves_skip leaves_andthen leaves_ifdef leaves_ifndef
  leaves_if leaves_define leaves_undef leaves_emit leaves_typedef_struct
  keeps_andthen keeps_ifdef keeps_ifndef keeps_if keeps_define keeps_undef
  keeps_emit keeps_typedef_struct : pp.

#[export] Hint Extern 1 (_ ≠ _) => discriminate : pp.

(** Frame goals of the headers' own blocks. *)
Ltac frame :=
  unfold Nginx.upto_includes, Nginx.sendfile_fallback, Nginx.stat_time_fields,
    Nginx.cpu_affinity, Nginx.cpu_set_type, Nginx.crypt_stub;
  eauto 40 with pp.

(** Removes from the goal the outermost directive of a state when it
    leaves the name that is looked up. *)
Ltac peel :=
  match goal with
  | |- context [macros (?d ?x) !! ?n] =>
      let L := fresh in
      assert (L : leaves d n) by frame; rewrite (L x); clear L
  | |- context [defined ?n (?d ?x)] =>
      let L := fresh in
      assert (L : leaves d n) by frame;
      rewrite (leaves_defined d n x L); clear L
  end.

Ltac peel_keeps :=
  match goal with
  | |- defined ?n (?d ?x) = true =>
      let K := fresh in
      assert (K : keeps d n) by frame; apply (K x); clear K
  end.

(** ** The blocks of nginx/wasm_compat.h *)

Section NginxBlocks.

Import Nginx.

Lemma sendfile_fallback_leaves n :
  n ≠ "NGX_HAVE_SENDFILE" → n ≠ "NGX_HAVE_SENDFILE64" →
  leaves sendfile_fallback n.
Proof. intros. unfold sendfile_fallback. eauto 10 with pp. Qed.

Lemma sendfile_fallback_undefines s :
  defined "NGX_HAVE_SENDFILE" (sendfile_fallback s) = false ∧
  defined "NGX_HAVE_SENDFILE64" (sendfile_fallback s) = false.
Proof.
  unfold sendfile_fallback, andthen, ifdef.
  destruct (defined "NGX_HAVE_SENDFILE" s) eqn:H1.
  - destruct (defined "NGX_HAVE_SENDFILE64" (undef "NGX_HAVE_SENDFILE" s)) eqn:H2.
    + split; [|apply defined_undef].
      rewrite leaves_defined by eauto with pp. apply defined_undef.
    + split; [apply defined_undef | done].
  - destruct (defined "NGX_HAVE_SENDFILE64" s) eqn:H2.
    + split; [|apply defined_undef].
      by rewrite leaves_defined by eauto with pp.
    + done.
Qed.

Lemma first_inclusion sched_h string_h s :
  defined "_WASM_COMPAT_H" s = false →
  wasm_compat_h sched_h string_h s =
  (cpu_affinity >>> crypt_stub >>> ifdef "__cplusplus" (emit ExternCClose))
    (upto_includes sched_h string_h s).
Proof. intros H. unfold wasm_compat_h, ifndef. by rewrite H. Qed.

Lemma repeated_inclusion sched_h string_h s :
  defined "_WASM_COMPAT_H" s = true → wasm_compat_h sched_h string_h s = s.
Proof. intros H. unfold wasm_compat_h, ifndef. by rewrite H. Qed.

End NginxBlocks.

Lemma untouched_leaves d ns n : untouched d ns → n ∈ ns → leaves d n.
Proof. unfold untouched. rewrite Forall_forall. auto. Qed.

(** Brings the facts of an [untouched] hypothesis for the names in use
    into the context. *)
Ltac use_untouched H n :=
  let L := fresh "L" in
  assert (L := untouched_leaves _ _ n H ltac:(repeat constructor)).

(** ** Sendfile capability suppression *)

(** C3: after the first inclusion of the server header, that is, with the
    include guard [_WASM_COMPAT_H] not yet defined, [NGX_HAVE_SENDFILE] and
    [NGX_HAVE_SENDFILE64] are both undefined, whatever their state before
    the inclusion, given that [<sched.h>] and [<string.h>], which the
    header includes after the two [#undef], do not define them. *)
Theorem sendfile_macros_undefined (sched_h string_h : directive) (s : cpp) :
  defined "_WASM_COMPAT_H" s = false →
  untouched sched_h ["NGX_HAVE_SENDFILE"; "NGX_HAVE_SENDFILE64"] →
  untouched string_h ["NGX_HAVE_SENDFILE"; "NGX_HAVE_SENDFILE64"] →
  defined "NGX_HAVE_SENDFILE" (Nginx.wasm_compat_h sched_h string_h s) = false ∧
  defined "NGX_HAVE_SENDFILE64" (Nginx.wasm_compat_h sched_h string_h s) = false.
Proof.
  intros Hg Hsched Hstring.
  use_untouched Hsched "NGX_HAVE_SENDFILE".
  use_untouched Hsched "NGX_HAVE_SENDFILE64".
  use_untouched Hstring "NGX_HAVE_SENDFILE".
  use_untouched Hstring "NGX_HAVE_SENDFILE64".
  unfold Nginx.wasm_compat_h, ifndef. rewrite Hg. unfold andthen.
  split; do 6 peel; apply sendfile_fallback_undefines.
Qed.

Lemma sendfile_macros_undefined_witness :
  let s := define "NGX_HAVE_SENDFILE" (ObjLike ⟦ 1 ⟧) start in
  defined "NGX_HAVE_SENDFILE" s = true ∧
  defined "NGX_HAVE_SENDFILE" (Nginx.wasm_compat_h skip skip s) = false ∧
  defined "NGX_HAVE_SENDFILE64" (Nginx.wasm_compat_h skip skip s) = false.
Proof.
  split; [reflexivity|].
  apply (sendfile_macros_undefined skip skip
           (define "NGX_HAVE_SENDFILE" (ObjLike ⟦ 1 ⟧) start)).
  - reflexivity.
  - repeat constructor.
  - repeat constructor.
Defined.

(** ** Declarations in force *)

Lemma function_lookup_app f tu tu' :
  function_lookup f (tu ++ tu') =
  match function_lookup f tu' with
  | Some d => Some d
  | None => function_lookup f tu
  end.
Proof.
  induction tu as [|it tu IH]; simpl.
  - by destruct (function_lookup f tu').
  - rewrite IH. by destruct (function_lookup f tu').
Qed.

Lemma typedef_lookup_app x tu tu' :
  typedef_lookup x (tu ++ tu') =
  match typedef_lookup x tu' with
  | Some d => Some d
  | None => typedef_lookup x tu
  end.
Proof.
  induction tu as [|it tu IH]; simpl.
  - by destruct (typedef_lookup x tu').
  - rewrite IH. by destruct (typedef_lookup x tu').
Qed.

(** ** Password-hash stub *)

(** The body of [crypt] on any two arguments, in any memory. *)
Lemma crypt_body sizeof key salt m :
  exec sizeof
    (statements [] ⟦ LParen; "void"; RParen; "key"; Semi;
                     LParen; "void"; RParen; "salt"; Semi;
                     "return"; LParen; "char"; Star; RParen; 0; Semi ⟧)
    {| vars := list_to_map [("key", key); ("salt", salt)]; mem := m |}
  = Some (NULL, {| vars := list_to_map [("key", key); ("salt", salt)];
                   mem := m |}).
Proof. vm_compute. reflexivity. Qed.

(** C1: on the first inclusion of the server header (include guard not
    yet defined) with neither [HAVE_CRYPT] nor [_CRYPT_H] defined before
    it, and with [<sched.h>] and [<string.h>] defining neither, the header
    defines the function [crypt] with the signature
    [char *crypt(const char *key, const char *salt)]; a call with any two
    arguments, in any memory, returns the null pointer and changes
    nothing; and [HAVE_CRYPT] is defined after the inclusion. *)
Theorem crypt_stub_fails_closed (sched_h string_h : directive)
    (sizeof_ulong : Z) (s : cpp) :
  defined "_WASM_COMPAT_H" s = false →
  defined "HAVE_CRYPT" s = false →
  defined "_CRYPT_H" s = false →
  untouched sched_h ["HAVE_CRYPT"; "_CRYPT_H"] →
  untouched string_h ["HAVE_CRYPT"; "_CRYPT_H"] →
  let s' := Nginx.wasm_compat_h sched_h string_h s in
  Nginx.crypt ∈ decls s' ∧
  function_lookup "crypt" (decls s') =
    Some ([(TPtr (TConst TChar), "key"); (TPtr (TConst TChar), "salt")],
          ⟦ LParen; "void"; RParen; "key"; Semi;
            LParen; "void"; RParen; "salt"; Semi;
            "return"; LParen; "char"; Star; RParen; 0; Semi ⟧) ∧
  (∀ key salt st,
     call sizeof_ulong (decls s') "crypt" [key; salt] st = Some (NULL, st)) ∧
  defined "HAVE_CRYPT" s' = true.
Proof.
  intros Hg Hc Hh Hsched Hstring s'.
  use_untouched Hsched "HAVE_CRYPT". use_untouched Hsched "_CRYPT_H".
  use_untouched Hstring "HAVE_CRYPT". use_untouched Hstring "_CRYPT_H".
  subst s'. rewrite first_inclusion by done.
  set (q := Nginx.cpu_affinity (Nginx.upto_includes sched_h string_h s)).
  assert (F1 : leaves (Nginx.upto_includes sched_h string_h >>> Nginx.cpu_affinity)
                 "HAVE_CRYPT") by frame.
  assert (F2 : leaves (Nginx.upto_includes sched_h string_h >>> Nginx.cpu_affinity)
                 "_CRYPT_H") by frame.
  assert (Q1 : defined "HAVE_CRYPT" q = false)
    by (etrans; [apply (leaves_defined _ _ s F1) | exact Hc]).
  assert (Q2 : defined "_CRYPT_H" q = false)
    by (etrans; [apply (leaves_defined _ _ s F2) | exact Hh]).
  change ((Nginx.cpu_affinity >>> Nginx.crypt_stub >>>
           ifdef "__cplusplus" (emit ExternCClose))
            (Nginx.upto_includes sched_h string_h s))
    with (ifdef "__cplusplus" (emit ExternCClose) (Nginx.crypt_stub q)).
  assert (R : Nginx.crypt_stub q =
              define "HAVE_CRYPT" (ObjLike ⟦ 1 ⟧) (emit Nginx.crypt q)).
  { unfold Nginx.crypt_stub, if_. simpl holds. by rewrite Q1, Q2. }
  rewrite R. clear R.
  set (r := define "HAVE_CRYPT" (ObjLike ⟦ 1 ⟧) (emit Nginx.crypt q)).
  assert (D : ∃ tail, decls (ifdef "__cplusplus" (emit ExternCClose) r)
                      = decls q ++ [Nginx.crypt] ++ tail
                      ∧ function_lookup "crypt" tail = None).
  { unfold ifdef. destruct (defined "__cplusplus" r).
    - exists [ExternCClose]. split; [|done]. simpl. by rewrite <- app_assoc.
    - exists []. split; [|done]. simpl. done. }
  destruct D as (tail & D & Dt).
  assert (Lk : function_lookup "crypt"
                 (decls (ifdef "__cplusplus" (emit ExternCClose) r)) =
              Some ([(TPtr (TConst TChar), "key"); (TPtr (TConst TChar), "salt")],
                    ⟦ LParen; "void"; RParen; "key"; Semi;
                      LParen; "void"; RParen; "salt"; Semi;
                      "return"; LParen; "char"; Star; RParen; 0; Semi ⟧)).
  { rewrite D, function_lookup_app, function_lookup_app, Dt. done. }
  split; [|split; [|split]].
  - rewrite D, !elem_of_app. right; left. repeat constructor.
  - exact Lk.
  - intros key salt [vs m]. unfold call. rewrite Lk.
    cbn -[exec statements list_to_map].
    rewrite crypt_body. done.
  - rewrite (leaves_defined _ _ r) by eauto with pp. apply defined_define.
Qed.

Lemma crypt_stub_fails_closed_witness :
  let s' := Nginx.wasm_compat_h skip skip start in
  Nginx.crypt ∈ decls s' ∧
  function_lookup "crypt" (decls s') =
    Some ([(TPtr (TConst TChar), "key"); (TPtr (TConst TChar), "salt")],
          ⟦ LParen; "void"; RParen; "key"; Semi;
            LParen; "void"; RParen; "salt"; Semi;
            "return"; LParen; "char"; Star; RParen; 0; Semi ⟧) ∧
  (∀ key salt st, call 4 (decls s') "crypt" [key; salt] st = Some (NULL, st)) ∧
  defined "HAVE_CRYPT" s' = true.
Proof.
  apply (crypt_stub_fails_closed skip skip 4 start).
  - reflexivity.
  - reflexivity.
  - reflexivity.
  - repeat constructor.
  - repeat constructor.
Defined.

(** ** Stat-field aliasing *)

(** [#ifndef n] / [#define n x] / [#endif] *)
Lemma lookup_define_if_absent n x m s :
  macros (ifndef n (define n x) s) !! m =
  if decide (m = n) then Some (default x (macros s !! n)) else macros s !! m.
Proof.
  unfold ifndef, defined. destruct (macros s !! n) eqn:E; simpl.
  - case_decide; [by subst | done].
  - case_decide; [subst; apply lookup_insert_eq | by rewrite lookup_insert_ne].
Qed.

(** The three lines that both headers have: a legacy name that is not a
    macro becomes the alias, one that is a macro stays what it is. *)
Lemma stat_time_fields_lookup s n f :
  (n, f) ∈ legacy_names →
  macros (Nginx.stat_time_fields s) !! n =
  Some (default (seconds_of f) (macros s !! n)).
Proof.
  intros H. unfold Nginx.stat_time_fields, andthen.
  rewrite !lookup_define_if_absent.
  unfold legacy_names in H.
  repeat (apply elem_of_cons in H as [[= -> ->]|H]; [by repeat case_decide|]).
  by apply elem_of_nil in H.
Qed.

Lemma bash_first_inclusion sys_stat_h s :
  defined "WASM_COMPAT_H" s = false →
  defined "__wasi__" s = true →
  Bash.wasm_compat_h sys_stat_h s =
  Nginx.stat_time_fields (sys_stat_h (define "WASM_COMPAT_H" (ObjLike ⟦ ⟧) s)).
Proof.
  intros Hg Hw. unfold Bash.wasm_compat_h, ifndef at 1. rewrite Hg.
  unfold andthen at 1, ifdef.
  rewrite (leaves_defined (define "WASM_COMPAT_H" (ObjLike ⟦ ⟧)) "__wasi__" s)
    by eauto with pp.
  by rewrite Hw.
Qed.

Lemma bash_without_wasi sys_stat_h s :
  defined "__wasi__" s = false →
  Bash.wasm_compat_h sys_stat_h s =
  if defined "WASM_COMPAT_H" s then s
  else define "WASM_COMPAT_H" (ObjLike ⟦ ⟧) s.
Proof.
  intros Hw. unfold Bash.wasm_compat_h, ifndef at 1.
  destruct (defined "WASM_COMPAT_H" s); [done|].
  unfold andthen at 1, ifdef.
  rewrite (leaves_defined (define "WASM_COMPAT_H" (ObjLike ⟦ ⟧)) "__wasi__" s)
    by eauto with pp.
  by rewrite Hw.
Qed.

(** The expression [sb.n] when [n] is an object-like macro. *)
Lemma read_member_macro tbl sb n repl :
  keyword n = false →
  tbl !! n = Some (ObjLike repl) →
  read_member tbl sb n =
  match member_path (OStat sb) repl with
  | Some (OInt k) => Some k
  | _ => None
  end.
Proof.
  intros Hk Hn. unfold read_member, expand. simpl flat_map.
  by rewrite Hk, Hn, app_nil_r.
Qed.

Lemma legacy_name n f :
  (n, f) ∈ legacy_names → n ∈ ["st_atime"; "st_mtime"; "st_ctime"].
Proof.
  intros H. unfold legacy_names in H. rewrite !elem_of_cons, elem_of_nil in H.
  destruct H as [[= -> _]|[[= -> _]|[[= -> _]|[]]]]; repeat constructor.
Qed.

Lemma legacy_name_not_guard n f :
  (n, f) ∈ legacy_names → "WASM_COMPAT_H" ≠ n.
Proof.
  intros H. unfold legacy_names in H. rewrite !elem_of_cons, elem_of_nil in H.
  by destruct H as [[= -> _]|[[= -> _]|[[= -> _]|[]]]].
Qed.

Lemma nginx_legacy_lookup sched_h string_h s n f :
  defined "_WASM_COMPAT_H" s = false →
  (n, f) ∈ legacy_names →
  leaves sched_h n → leaves string_h n →
  macros (Nginx.wasm_compat_h sched_h string_h s) !! n =
  Some (default (seconds_of f) (macros s !! n)).
Proof.
  intros Hg Hn Hsched Hstring.
  unfold Nginx.wasm_compat_h, ifndef. rewrite Hg. unfold andthen.
  assert (Hin := Hn). unfold legacy_names in Hin.
  rewrite !elem_of_cons, elem_of_nil in Hin.
  destruct Hin as [[= -> ->]|[[= -> ->]|[[= -> ->]|[]]]];
    do 5 peel; rewrite (stat_time_fields_lookup _ _ _ Hn); by do 3 peel.
Qed.

(** C2, as the code has it: the shell header defines the legacy names only
    under [#ifdef __wasi__]; when [__wasi__] is not defined it introduces
    no macro but its include guard.  The server header has no target
    conditional: on its first inclusion it makes every legacy name that is
    not yet a macro the alias of the seconds of its time field, also when
    [__wasi__] is not defined (given that [<sched.h>] and [<string.h>]
    leave the names alone). *)
Theorem stat_aliases_guarding (sys_stat_h sched_h string_h : directive)
    (s : cpp) :
  defined "_WASM_COMPAT_H" s = false →
  untouched sched_h ["st_atime"; "st_mtime"; "st_ctime"] →
  untouched string_h ["st_atime"; "st_mtime"; "st_ctime"] →
  (defined "__wasi__" s = false →
   ∀ n, n ≠ "WASM_COMPAT_H" →
        macros (Bash.wasm_compat_h sys_stat_h s) !! n = macros s !! n) ∧
  (∀ n f, (n, f) ∈ legacy_names →
          macros (Nginx.wasm_compat_h sched_h string_h s) !! n =
          Some (default (seconds_of f) (macros s !! n))).
Proof.
  intros Hg Hsched Hstring. split.
  - intros Hw n Hn. rewrite bash_without_wasi by done.
    destruct (defined "WASM_COMPAT_H" s); [done|].
    by apply leaves_define.
  - intros n f Hn. apply nginx_legacy_lookup; [done..| |].
    + apply (untouched_leaves _ _ _ Hsched), (legacy_name _ _ Hn).
    + apply (untouched_leaves _ _ _ Hstring), (legacy_name _ _ Hn).
Qed.

(** A translation unit without [__wasi__]: the shell header adds its guard
    and nothing else, the server header adds the three aliases. *)
Lemma stat_aliases_guarding_witness :
  (∀ n, n ≠ "WASM_COMPAT_H" →
        macros (Bash.wasm_compat_h skip start) !! n = macros start !! n) ∧
  (∀ n f, (n, f) ∈ legacy_names →
          macros (Nginx.wasm_compat_h skip skip start) !! n =
          Some (seconds_of f)).
Proof.
  destruct (stat_aliases_guarding skip skip skip start) as [H1 H2].
  - reflexivity.
  - repeat constructor.
  - repeat constructor.
  - split; [exact (H1 eq_refl) | exact H2].
Defined.

(** C2 as stated fails for the server header: in a translation unit that
    does not define [__wasi__] the header introduces [st_atime]. *)
Lemma stat_aliases_without_target :
  ¬ (defined "__wasi__" start = false →
     ∀ n f, (n, f) ∈ legacy_names →
            macros (Nginx.wasm_compat_h skip skip start) !! n
            = macros start !! n).
Proof.
  intros H.
  specialize (H eq_refl "st_atime" "st_atim" ltac:(repeat constructor)).
  vm_compute in H. discriminate H.
Qed.

(** A designator whose identifiers are not macros is left as it is. *)
Lemma read_designator_fields tbl sb f :
  keyword f = false →
  tbl !! f = None → tbl !! "tv_sec" = None →
  read_designator tbl sb (TId f :: TP Dot :: TId "tv_sec" :: []) =
  match member_path (OStat sb) (TId f :: TP Dot :: TId "tv_sec" :: []) with
  | Some (OInt k) => Some k
  | _ => None
  end.
Proof.
  intros Hk Hf Hs. unfold read_designator, expand. cbn [flat_map].
  change (keyword "tv_sec") with false. by rewrite Hk, Hf, Hs.
Qed.

Lemma reads_seconds_intro tbl sb :
  (∀ n f, (n, f) ∈ legacy_names → tbl !! n = Some (seconds_of f)) →
  (∀ n, n ∈ time_fields → tbl !! n = None) →
  reads_seconds tbl sb.
Proof.
  intros Halias Hfield.
  assert (Hat : ("st_atime", "st_atim") ∈ legacy_names)
    by repeat constructor.
  assert (Hmt : ("st_mtime", "st_mtim") ∈ legacy_names)
    by repeat constructor.
  assert (Hct : ("st_ctime", "st_ctim") ∈ legacy_names)
    by repeat constructor.
  assert (Ha : tbl !! "st_atim" = None) by (apply Hfield; repeat constructor).
  assert (Hm : tbl !! "st_mtim" = None) by (apply Hfield; repeat constructor).
  assert (Hc : tbl !! "st_ctim" = None) by (apply Hfield; repeat constructor).
  assert (Hs : tbl !! "tv_sec" = None) by (apply Hfield; repeat constructor).
  unfold reads_seconds.
  rewrite !read_designator_fields by done.
  rewrite (read_member_macro tbl sb "st_atime" _ eq_refl (Halias _ _ Hat)).
  rewrite (read_member_macro tbl sb "st_mtime" _ eq_refl (Halias _ _ Hmt)).
  rewrite (read_member_macro tbl sb "st_ctime" _ eq_refl (Halias _ _ Hct)).
  split; split; try split; reflexivity.
Qed.

Lemma shell_header_leaves n sys_stat_h :
  n ∉ bash_names → leaves sys_stat_h n →
  leaves (Bash.wasm_compat_h sys_stat_h) n.
Proof.
  intros Hn Hsys. unfold bash_names in Hn.
  repeat (apply not_elem_of_cons in Hn as [? Hn]).
  assert (∀ m, n ≠ m → m ≠ n) as Hsym by (intros m Hm E; by apply Hm).
  unfold Bash.wasm_compat_h. eauto 30 with pp.
Qed.

Lemma server_header_leaves n sched_h string_h :
  n ∉ nginx_names → leaves sched_h n → leaves string_h n →
  leaves (Nginx.wasm_compat_h sched_h string_h) n.
Proof.
  intros Hn Hsched Hstring. unfold nginx_names in Hn.
  repeat (apply not_elem_of_cons in Hn as [? Hn]).
  assert (∀ m, n ≠ m → m ≠ n) as Hsym by (intros m Hm E; by apply Hm).
  assert (L1 : leaves Nginx.sendfile_fallback n) by frame.
  assert (L2 : leaves Nginx.stat_time_fields n) by frame.
  assert (L3 : leaves Nginx.cpu_affinity n) by frame.
  assert (L4 : leaves Nginx.crypt_stub n) by frame.
  unfold Nginx.wasm_compat_h. eauto 20 with pp.
Qed.

(** C8: in a build for the runtime ([__wasi__] defined) where the legacy
    names are not macros, neither before the inclusion nor through the
    system headers, and where the time fields and their seconds are what
    they are in the runtime, names of fields and not macros: a program that
    has included either header for the first time reads, for every
    file-status value [sb], [sb.st_atime] as it reads [sb.st_atim.tv_sec],
    [sb.st_mtime] as [sb.st_mtim.tv_sec] and [sb.st_ctime] as
    [sb.st_ctim.tv_sec], and the value read is the [tv_sec] of the
    field. *)
Theorem legacy_names_read_seconds (sys_stat_h sched_h string_h : directive)
    (s : cpp) (sb : stat) :
  defined "__wasi__" s = true →
  defined "WASM_COMPAT_H" s = false →
  defined "_WASM_COMPAT_H" s = false →
  Forall (λ n, defined n s = false) ["st_atime"; "st_mtime"; "st_ctime"] →
  untouched sys_stat_h ["st_atime"; "st_mtime"; "st_ctime"] →
  untouched sched_h ["st_atime"; "st_mtime"; "st_ctime"] →
  untouched string_h ["st_atime"; "st_mtime"; "st_ctime"] →
  Forall (λ n, defined n s = false) time_fields →
  untouched sys_stat_h time_fields →
  untouched sched_h time_fields →
  untouched string_h time_fields →
  reads_seconds (macros (Bash.wasm_compat_h sys_stat_h s)) sb ∧
  reads_seconds (macros (Nginx.wasm_compat_h sched_h string_h s)) sb.
Proof.
  intros Hw Hgb Hgn Habs Hsys Hsched Hstring Hfld Fsys Fsched Fstring.
  set (shell := macros (Bash.wasm_compat_h sys_stat_h s)).
  set (server := macros (Nginx.wasm_compat_h sched_h string_h s)).
  assert (Hshell : ∀ n f, (n, f) ∈ legacy_names →
                          shell !! n = Some (seconds_of f)).
  { intros n f Hn. subst shell. rewrite bash_first_inclusion by done.
    rewrite (stat_time_fields_lookup _ n f Hn).
    assert (Hin := legacy_name _ _ Hn).
    rewrite (untouched_leaves _ _ n Hsys Hin).
    rewrite leaves_define by apply (legacy_name_not_guard _ _ Hn).
    rewrite Forall_forall in Habs. apply Habs, defined_false in Hin.
    by rewrite Hin. }
  assert (Hserver : ∀ n f, (n, f) ∈ legacy_names →
                           server !! n = Some (seconds_of f)).
  { intros n f Hn. subst server.
    assert (Hin := legacy_name _ _ Hn).
    rewrite (nginx_legacy_lookup _ _ _ n f) by eauto using untouched_leaves.
    rewrite Forall_forall in Habs. apply Habs, defined_false in Hin.
    by rewrite Hin. }
  assert (Fshell : ∀ n, n ∈ time_fields → shell !! n = None).
  { intros n Hn. subst shell.
    rewrite shell_header_leaves.
    - rewrite Forall_forall in Hfld. by apply defined_false, Hfld.
    - unfold time_fields in Hn. unfold bash_names.
      rewrite !elem_of_cons, elem_of_nil in Hn.
      rewrite !not_elem_of_cons, elem_of_nil.
      destruct Hn as [->|[->|[->|[->|[]]]]];
        repeat (split; [discriminate|]); tauto.
    - by apply (untouched_leaves _ _ n Fsys). }
  assert (Fserver : ∀ n, n ∈ time_fields → server !! n = None).
  { intros n Hn. subst server.
    rewrite server_header_leaves.
    - rewrite Forall_forall in Hfld. by apply defined_false, Hfld.
    - unfold time_fields in Hn. unfold nginx_names.
      rewrite !elem_of_cons, elem_of_nil in Hn.
      rewrite !not_elem_of_cons, elem_of_nil.
      destruct Hn as [->|[->|[->|[->|[]]]]];
        repeat (split; [discriminate|]); tauto.
    - by apply (untouched_leaves _ _ n Fsched).
    - by apply (untouched_leaves _ _ n Fstring). }
  split; apply reads_seconds_intro; done.
Qed.

Lemma legacy_names_read_seconds_witness :
  let s := define "__wasi__" (ObjLike ⟦ 1 ⟧) start in
  let sb := {| st_size := 0;
               st_atim := {| tv_sec := 1700000001; tv_nsec := 5 |};
               st_mtim := {| tv_sec := 1700000002; tv_nsec := 6 |};
               st_ctim := {| tv_sec := 1700000003; tv_nsec := 7 |} |} in
  read_member (macros (Bash.wasm_compat_h skip s)) sb "st_mtime"
    = Some 1700000002 ∧
  read_member (macros (Nginx.wasm_compat_h skip skip s)) sb "st_ctime"
    = Some 1700000003.
Proof.
  intros s sb.
  destruct (legacy_names_read_seconds skip skip skip s sb)
    as [(_ & _ & H1 & _) (_ & _ & _ & H2)].
  - reflexivity.
  - reflexivity.
  - reflexivity.
  - repeat constructor.
  - repeat constructor.
  - repeat constructor.
  - repeat constructor.
  - repeat constructor.
  - repeat constructor.
  - repeat constructor.
  - repeat constructor.
  - split; [exact H1 | exact H2].
Defined.

(** ** CPU affinity shim: what the header introduces *)

Lemma decls_define_if_absent n x s : decls (ifndef n (define n x) s) = decls s.
Proof. unfold ifndef. by destruct (defined n s). Qed.

Lemma expand_array_length tbl :
  tbl !! "CPU_SETSIZE" = Some (ObjLike ⟦ 1024 ⟧) →
  expand tbl ⟦ "CPU_SETSIZE"; Slash; LParen; 8; Star;
               "sizeof"; LParen; "unsigned"; "long"; RParen; RParen ⟧
  = ⟦ 1024; Slash; LParen; 8; Star;
      "sizeof"; LParen; "unsigned"; "long"; RParen; RParen ⟧.
Proof.
  intros H. unfold expand. cbn [flat_map].
  change (keyword "CPU_SETSIZE") with false.
  change (keyword "sizeof") with true.
  change (keyword "unsigned") with true.
  change (keyword "long") with true.
  cbn iota. by rewrite H.
Qed.

Lemma lookup_define_if_absent_ne n x m s :
  m ≠ n → macros (ifndef n (define n x) s) !! m = macros s !! m.
Proof. intros H. rewrite lookup_define_if_absent. by case_decide. Qed.

Lemma lookup_define_if_absent_eq n x s :
  macros (ifndef n (define n x) s) !! n =
  if defined n s then macros s !! n else Some x.
Proof.
  rewrite lookup_define_if_absent. case_decide; [|done].
  unfold defined. by destruct (macros s !! n).
Qed.

(** Lines 76 to 81. *)
Lemma cpu_set_type_spec p :
  macros (Nginx.cpu_set_type p) !! "CPU_SETSIZE" =
    (if defined "CPU_SETSIZE" p then macros p !! "CPU_SETSIZE"
     else Some (ObjLike ⟦ 1024 ⟧)) ∧
  decls (Nginx.cpu_set_type p) =
    decls p ++ (if defined "CPU_SETSIZE" p then [] else [Nginx.cpu_set_t]) ∧
  (∀ n, n ≠ "CPU_SETSIZE" → macros (Nginx.cpu_set_type p) !! n = macros p !! n).
Proof.
  unfold Nginx.cpu_set_type, ifndef.
  destruct (defined "CPU_SETSIZE" p).
  - by rewrite app_nil_r.
  - unfold andthen, typedef_struct. cbn [macros decls emit define map fst snd
      expand_type].
    rewrite expand_array_length by apply lookup_insert_eq.
    repeat split; [apply lookup_insert_eq|].
    intros n Hn. by rewrite lookup_insert_ne.
Qed.

(** Lines 76 to 93. *)
Lemma cpu_affinity_spec p :
  macros (Nginx.cpu_affinity p) !! "CPU_SETSIZE" =
    (if defined "CPU_SETSIZE" p then macros p !! "CPU_SETSIZE"
     else Some (ObjLike ⟦ 1024 ⟧)) ∧
  decls (Nginx.cpu_affinity p) =
    decls p ++ (if defined "CPU_SETSIZE" p then [] else [Nginx.cpu_set_t]) ∧
  (∀ m x, (m, x) ∈ Nginx.shim_macros →
     macros (Nginx.cpu_affinity p) !! m =
     if defined m p then macros p !! m else Some x).
Proof.
  destruct (cpu_set_type_spec p) as (H1 & H2 & H3).
  unfold Nginx.cpu_affinity, andthen.
  repeat split.
  - by rewrite !lookup_define_if_absent_ne.
  - by rewrite !decls_define_if_absent.
  - intros m x Hm. unfold Nginx.shim_macros in Hm.
    rewrite !elem_of_cons, elem_of_nil in Hm.
    destruct Hm as [[= -> ->]|[[= -> ->]|[[= -> ->]|[]]]].
    + rewrite 2!lookup_define_if_absent_ne by done.
      rewrite lookup_define_if_absent_eq.
      rewrite (defined_eq "CPU_ZERO" p) by (by apply H3).
      by rewrite H3.
    + rewrite lookup_define_if_absent_ne by done.
      rewrite lookup_define_if_absent_eq.
      rewrite (defined_eq "CPU_SET" p)
        by (rewrite lookup_define_if_absent_ne by done; by apply H3).
      rewrite lookup_define_if_absent_ne by done.
      by rewrite H3.
    + rewrite lookup_define_if_absent_eq.
      rewrite (defined_eq "CPU_ISSET" p)
        by (rewrite 2!lookup_define_if_absent_ne by done; by apply H3).
      rewrite 2!lookup_define_if_absent_ne by done.
      by rewrite H3.
Qed.

Lemma after_affinity_leaves n :
  n ≠ "HAVE_CRYPT" →
  leaves (Nginx.crypt_stub >>> ifdef "__cplusplus" (emit ExternCClose)) n.
Proof. intros. frame. Qed.

(** What the end of the header, lines 103 to 115, adds to the
    declarations. *)
Lemma after_affinity_decls q :
  ∃ tail,
    decls ((Nginx.crypt_stub >>> ifdef "__cplusplus" (emit ExternCClose)) q)
    = decls q ++ tail ∧
    (∀ it, it ∈ tail → it = Nginx.crypt ∨ it = ExternCClose).
Proof.
  unfold andthen, Nginx.crypt_stub, if_, ifdef.
  set (c := holds _ q). destruct c.
  - set (r := (emit Nginx.crypt >>> define "HAVE_CRYPT" (ObjLike ⟦ 1 ⟧)) q).
    destruct (defined "__cplusplus" r).
    + exists [Nginx.crypt; ExternCClose]. split.
      * simpl. by rewrite <- app_assoc.
      * intros it. rewrite !elem_of_cons, elem_of_nil. tauto.
    + exists [Nginx.crypt]. split; [done|].
      intros it. rewrite !elem_of_cons, elem_of_nil. tauto.
  - destruct (defined "__cplusplus" q).
    + exists [ExternCClose]. split; [done|].
      intros it. rewrite !elem_of_cons, elem_of_nil. tauto.
    + exists []. split; [by rewrite app_nil_r|].
      intros it. by rewrite elem_of_nil.
Qed.

(** C4, as the code has it.  On the first inclusion of the server header,
    with [p] the state at [#ifndef CPU_SETSIZE] (after [<sched.h>] and
    [<string.h>] have been included): the macro [CPU_SETSIZE] and the type
    [cpu_set_t] are introduced exactly when [CPU_SETSIZE] is not a macro in
    [p]; each of [CPU_ZERO], [CPU_SET] and [CPU_ISSET] is introduced exactly
    when that name itself is not a macro in [p], whatever the state of
    [CPU_SETSIZE]; and a name that is a macro in [p] keeps its definition. *)
Theorem affinity_shim_guards (sched_h string_h : directive) (s : cpp) :
  defined "_WASM_COMPAT_H" s = false →
  let p := Nginx.upto_includes sched_h string_h s in
  let s' := Nginx.wasm_compat_h sched_h string_h s in
  macros s' !! "CPU_SETSIZE" =
    (if defined "CPU_SETSIZE" p then macros p !! "CPU_SETSIZE"
     else Some (ObjLike ⟦ 1024 ⟧)) ∧
  (∃ tail,
     decls s' =
       decls p ++ (if defined "CPU_SETSIZE" p then [] else [Nginx.cpu_set_t])
               ++ tail ∧
     ∀ it, it ∈ tail → it = Nginx.crypt ∨ it = ExternCClose) ∧
  (∀ m x, (m, x) ∈ Nginx.shim_macros →
     macros s' !! m = if defined m p then macros p !! m else Some x).
Proof.
  intros Hg p s'. subst s'. rewrite first_inclusion by done. fold p.
  destruct (cpu_affinity_spec p) as (H1 & H2 & H3).
  change ((Nginx.cpu_affinity >>> Nginx.crypt_stub >>>
           ifdef "__cplusplus" (emit ExternCClose)) p)
    with ((Nginx.crypt_stub >>> ifdef "__cplusplus" (emit ExternCClose))
            (Nginx.cpu_affinity p)).
  repeat split.
  - by rewrite after_affinity_leaves.
  - destruct (after_affinity_decls (Nginx.cpu_affinity p)) as (tail & Ht & Hin).
    exists tail. split; [|done]. by rewrite Ht, H2, <- app_assoc.
  - intros m x Hm. rewrite <- (H3 m x Hm). apply after_affinity_leaves.
    unfold Nginx.shim_macros in Hm. rewrite !elem_of_cons, elem_of_nil in Hm.
    by destruct Hm as [[= -> _]|[[= -> _]|[[= -> _]|[]]]].
Qed.

(** A sysroot whose [<sched.h>] has [CPU_SETSIZE] but none of the three
    macros: the header adds the macros and not the type. *)
Lemma affinity_shim_guards_witness :
  let sched_h := define "CPU_SETSIZE" (ObjLike ⟦ 64 ⟧) in
  let s' := Nginx.wasm_compat_h sched_h skip start in
  macros s' !! "CPU_SETSIZE" = Some (ObjLike ⟦ 64 ⟧) ∧
  macros s' !! "CPU_SET" = Some Nginx.CPU_SET.
Proof.
  intros sched_h s'.
  destruct (affinity_shim_guards sched_h skip start) as (H1 & _ & H3).
  - reflexivity.
  - split; [exact H1|].
    exact (H3 "CPU_SET" Nginx.CPU_SET ltac:(repeat constructor)).
Defined.

(** C4 as stated fails: with the sentinel [CPU_SETSIZE] defined before the
    inclusion and [CPU_SET] not, the header does introduce [CPU_SET]. *)
Lemma affinity_macros_despite_sentinel :
  let s := define "CPU_SETSIZE" (ObjLike ⟦ 1024 ⟧) start in
  ¬ (defined "CPU_SETSIZE" s = true →
     ∀ m x, (m, x) ∈ Nginx.shim_macros →
            macros (Nginx.wasm_compat_h skip skip s) !! m = macros s !! m).
Proof.
  intros s H.
  specialize (H eq_refl "CPU_SET" Nginx.CPU_SET ltac:(repeat constructor)).
  vm_compute in H. discriminate H.
Qed.

(** ** CPU affinity shim: the size of the type *)

Lemma typedef_lookup_tail x tail :
  (∀ it, it ∈ tail → it = Nginx.crypt ∨ it = ExternCClose) →
  typedef_lookup x tail = None.
Proof.
  induction tail as [|it tail IH]; intros H; [done|]. simpl.
  rewrite IH by (intros it' Hit; apply H; by right).
  by destruct (H it ltac:(by left)) as [-> | ->].
Qed.

Lemma parse_array_length :
  parse ⟦ 1024; Slash; LParen; 8; Star;
          "sizeof"; LParen; "unsigned"; "long"; RParen; RParen ⟧
  = Some (EDiv (EInt 1024) (EMul (EInt 8) (ESizeof TULong))).
Proof. reflexivity. Qed.

(** The length of [__bits]: [1024 / (8 * sizeof(unsigned long))]. *)
Lemma array_len_bits w :
  0 < w →
  array_len w ⟦ 1024; Slash; LParen; 8; Star;
                "sizeof"; LParen; "unsigned"; "long"; RParen; RParen ⟧
  = Some (1024 `div` (8 * w)).
Proof.
  intros Hw. unfold array_len, run. rewrite parse_array_length.
  cbn [eval hidden sizeof_prim mbind option_bind].
  destruct (decide (8 * w = 0)); [lia|].
  by rewrite Z.quot_div_nonneg by lia.
Qed.

(** C7: on the first inclusion of the server header with [CPU_SETSIZE]
    not defined before it (and not provided by [<sched.h>] or
    [<string.h>]), the type [cpu_set_t] in force is the header's: one
    member [__bits], an array of [1024 / (8 * sizeof(unsigned long))]
    [unsigned long], which holds exactly 1024 bits.  [sizeof(unsigned
    long)] is the target's; the count is exact when 8 times it divides
    1024, as it does for 4 and for 8. *)
Theorem cpu_set_capacity (sched_h string_h : directive) (sizeof_ulong : Z)
    (s : cpp) :
  defined "_WASM_COMPAT_H" s = false →
  defined "CPU_SETSIZE" s = false →
  untouched sched_h ["CPU_SETSIZE"] →
  untouched string_h ["CPU_SETSIZE"] →
  0 < sizeof_ulong →
  (8 * sizeof_ulong | 1024) →
  let tu := decls (Nginx.wasm_compat_h sched_h string_h s) in
  let len := ⟦ 1024; Slash; LParen; 8; Star;
               "sizeof"; LParen; "unsigned"; "long"; RParen; RParen ⟧ in
  typedef_lookup "cpu_set_t" tu = Some [("__bits", TArray TULong len)] ∧
  array_len sizeof_ulong len = Some (1024 `div` (8 * sizeof_ulong)) ∧
  bit_capacity sizeof_ulong tu (TNamed "cpu_set_t") = Some 1024.
Proof.
  intros Hg Habs Hsched Hstring Hw Hdiv tu len.
  use_untouched Hsched "CPU_SETSIZE". use_untouched Hstring "CPU_SETSIZE".
  assert (Hp : defined "CPU_SETSIZE" (Nginx.upto_includes sched_h string_h s)
               = false).
  { etrans; [|exact Habs]. apply leaves_defined. frame. }
  assert (Htu : typedef_lookup "cpu_set_t" tu
                = Some [("__bits", TArray TULong len)]).
  { subst tu. rewrite first_inclusion by done.
    set (p := Nginx.upto_includes sched_h string_h s) in *.
    destruct (cpu_affinity_spec p) as (_ & H2 & _).
    destruct (after_affinity_decls (Nginx.cpu_affinity p)) as (tail & Ht & Hin).
    change ((Nginx.cpu_affinity >>> Nginx.crypt_stub >>>
             ifdef "__cplusplus" (emit ExternCClose)) p)
      with ((Nginx.crypt_stub >>> ifdef "__cplusplus" (emit ExternCClose))
              (Nginx.cpu_affinity p)).
    rewrite Ht, H2, Hp.
    rewrite typedef_lookup_app, (typedef_lookup_tail _ _ Hin).
    by rewrite typedef_lookup_app. }
  assert (Hlen := array_len_bits sizeof_ulong Hw). fold len in Hlen.
  repeat split; [done..|].
  unfold bit_capacity, sizeof_type. rewrite Htu.
  cbn [mbind option_bind sizeof_fields sizeof_obj snd].
  rewrite Hlen. cbn [mbind option_bind]. f_equal.
  destruct Hdiv as [c Hc]. rewrite Hc, Z.div_mul by lia. lia.
Qed.

(** 4-byte [unsigned long] (wasm32): 32 elements; 8-byte: 16 elements. *)
Lemma cpu_set_capacity_witness :
  let tu := decls (Nginx.wasm_compat_h skip skip start) in
  bit_capacity 4 tu (TNamed "cpu_set_t") = Some 1024 ∧
  bit_capacity 8 tu (TNamed "cpu_set_t") = Some 1024.
Proof.
  split.
  - apply (cpu_set_capacity skip skip 4 start).
    + reflexivity.
    + reflexivity.
    + repeat constructor.
    + repeat constructor.
    + lia.
    + exists 32. reflexivity.
  - apply (cpu_set_capacity skip skip 8 start).
    + reflexivity.
    + reflexivity.
    + repeat constructor.
    + repeat constructor.
    + lia.
    + exists 16. reflexivity.
Defined.

(** The condition on [sizeof(unsigned long)] is needed: with 3-byte words
    the array would have 42 elements and hold 1008 bits. *)
Example cpu_set_capacity_odd_word :
  bit_capacity 3 (decls (Nginx.wasm_compat_h skip skip start))
    (TNamed "cpu_set_t") = Some 1008.
Proof. reflexivity. Qed.

(** ** Repeated inclusion *)

Lemma bash_guard_defined sys_stat_h s :
  keeps sys_stat_h "WASM_COMPAT_H" →
  defined "WASM_COMPAT_H" (Bash.wasm_compat_h sys_stat_h s) = true.
Proof.
  intros Hsys. unfold Bash.wasm_compat_h, ifndef at 1.
  destruct (defined "WASM_COMPAT_H" s) eqn:Hg; [done|].
  unfold andthen at 1.
  assert (K : keeps (ifdef "__wasi__"
                 (sys_stat_h >>>
                  ifndef "st_atime" (define "st_atime"
                                       (ObjLike ⟦ "st_atim"; Dot; "tv_sec" ⟧)) >>>
                  ifndef "st_mtime" (define "st_mtime"
                                       (ObjLike ⟦ "st_mtim"; Dot; "tv_sec" ⟧)) >>>
                  ifndef "st_ctime" (define "st_ctime"
                                       (ObjLike ⟦ "st_ctim"; Dot; "tv_sec" ⟧))))
               "WASM_COMPAT_H") by eauto 20 with pp.
  apply K, defined_define.
Qed.

Lemma nginx_guard_defined sched_h string_h s :
  keeps sched_h "_WASM_COMPAT_H" →
  keeps string_h "_WASM_COMPAT_H" →
  defined "_WASM_COMPAT_H" (Nginx.wasm_compat_h sched_h string_h s) = true.
Proof.
  intros Hsched Hstring. unfold Nginx.wasm_compat_h, ifndef at 1.
  destruct (defined "_WASM_COMPAT_H" s) eqn:Hg; [done|].
  unfold andthen. do 8 peel_keeps. apply defined_define.
Qed.

(** The diagnostics at work: a first inclusion into an empty translation
    unit reports nothing; a [CPU_SETSIZE] that differs from an earlier one
    would be reported, which is what the [#ifndef] around it prevents. *)
Example first_inclusion_is_silent :
  diags (Bash.wasm_compat_h skip start) = [] ∧
  diags (Nginx.wasm_compat_h skip skip start) = [].
Proof. split; reflexivity. Qed.

Example unguarded_define_is_reported :
  diags (define "CPU_SETSIZE" (ObjLike ⟦ 1024 ⟧)
           (define "CPU_SETSIZE" (ObjLike ⟦ 64 ⟧) start))
  = [MacroRedefined "CPU_SETSIZE"] ∧
  diags (emit Nginx.crypt (emit Nginx.crypt start)) = [Redeclared "crypt"].
Proof. split; reflexivity. Qed.

(** C9: for every state of the translation unit, processing either header
    a second time changes nothing: the macro table, the declarations and
    the diagnostics after two inclusions are those after one, so the second
    inclusion defines nothing and reports no redefinition.  The same holds
    when other text [between] stands between the two inclusions, as in a
    transitive inclusion.  The system headers and the text between are
    taken not to undefine the include guard. *)
Theorem inclusion_idempotent (sys_stat_h sched_h string_h : directive)
    (s : cpp) :
  keeps sys_stat_h "WASM_COMPAT_H" →
  keeps sched_h "_WASM_COMPAT_H" →
  keeps string_h "_WASM_COMPAT_H" →
  let shell := Bash.wasm_compat_h sys_stat_h in
  let server := Nginx.wasm_compat_h sched_h string_h in
  (shell (shell s) = shell s ∧ server (server s) = server s) ∧
  (∀ between, keeps between "WASM_COMPAT_H" →
              shell (between (shell s)) = between (shell s)) ∧
  (∀ between, keeps between "_WASM_COMPAT_H" →
              server (between (server s)) = between (server s)).
Proof.
  intros Hsys Hsched Hstring shell server.
  assert (Hshell : ∀ t, defined "WASM_COMPAT_H" t = true → shell t = t).
  { intros t Ht. subst shell. unfold Bash.wasm_compat_h, ifndef at 1.
    by rewrite Ht. }
  assert (Hserver : ∀ t, defined "_WASM_COMPAT_H" t = true → server t = t)
    by apply repeated_inclusion.
  assert (Gshell := bash_guard_defined sys_stat_h s Hsys).
  assert (Gserver := nginx_guard_defined sched_h string_h s Hsched Hstring).
  split; [split|split].
  - by apply Hshell.
  - by apply Hserver.
  - intros between Hb. by apply Hshell, Hb.
  - intros between Hb. by apply Hserver, Hb.
Qed.

(** A translation unit that has [__wasi__] and [NGX_HAVE_SENDFILE]; between
    the two inclusions of the server header [NGX_HAVE_SENDFILE] is defined
    again. *)
Lemma inclusion_idempotent_witness :
  let s := define "__wasi__" (ObjLike ⟦ 1 ⟧)
             (define "NGX_HAVE_SENDFILE" (ObjLike ⟦ 1 ⟧) start) in
  let shell := Bash.wasm_compat_h skip in
  let server := Nginx.wasm_compat_h skip skip in
  let between := define "NGX_HAVE_SENDFILE" (ObjLike ⟦ 1 ⟧) in
  (shell (shell s) = shell s ∧ server (server s) = server s) ∧
  server (between (server s)) = between (server s).
Proof.
  intros s shell server between.
  destruct (inclusion_idempotent skip skip skip s) as (H1 & _ & H3).
  - intros t Ht. exact Ht.
  - intros t Ht. exact Ht.
  - intros t Ht. exact Ht.
  - split; [exact H1|]. apply H3. apply keeps_define.
Defined.

(** ** CPU affinity shim: the macros at run time *)

(** The expansions of [CPU_SET(cpu, set)] and [CPU_ISSET(cpu, set)] do not
    contain the arguments. *)
Lemma invoke_CPU_SET tbl cpu set :
  tbl !! "CPU_SET" = Some Nginx.CPU_SET →
  invoke tbl "CPU_SET" [cpu; set]
  = Some ⟦ LParen; LParen; "void"; RParen; 0; RParen ⟧.
Proof. intros H. unfold invoke. rewrite H. reflexivity. Qed.

Lemma invoke_CPU_ISSET tbl cpu set :
  tbl !! "CPU_ISSET" = Some Nginx.CPU_ISSET →
  invoke tbl "CPU_ISSET" [cpu; set] = Some ⟦ LParen; 0; RParen ⟧.
Proof. intros H. unfold invoke. rewrite H. reflexivity. Qed.

(** [((void)0)] and [(0)] *)
Lemma run_void sizeof st :
  run sizeof ⟦ LParen; LParen; "void"; RParen; 0; RParen ⟧ st
  = Some (VVoid, st).
Proof. reflexivity. Qed.

Lemma run_zero sizeof st :
  run sizeof ⟦ LParen; 0; RParen ⟧ st = Some (VInt 0, st).
Proof. reflexivity. Qed.

Lemma run_CPU_SET w s cpu set st :
  macros s !! "CPU_SET" = Some Nginx.CPU_SET →
  run_macro w s "CPU_SET" [cpu; set] st = Some (VVoid, st).
Proof.
  intros H. unfold run_macro. rewrite (invoke_CPU_SET _ _ _ H).
  apply run_void.
Qed.

Lemma run_CPU_ISSET w s cpu set st :
  macros s !! "CPU_ISSET" = Some Nginx.CPU_ISSET →
  run_macro w s "CPU_ISSET" [cpu; set] st = Some (VInt 0, st).
Proof.
  intros H. unfold run_macro. rewrite (invoke_CPU_ISSET _ _ _ H).
  apply run_zero.
Qed.

(** C5: where [CPU_SET] is the macro of the shim, [CPU_SET(cpu, set)],
    for any index expression [cpu] and any set expression [set], evaluates
    without a fault and leaves every byte of the memory, so every byte of
    any [cpu_set_t] instance, as it was; in particular [n] bytes from an
    address [a] on that were zero are zero afterwards. *)
Theorem cpu_set_alters_no_byte (sizeof_ulong : Z) (s : cpp)
    (cpu set : list token) (st : cstate) :
  macros s !! "CPU_SET" = Some Nginx.CPU_SET →
  ∃ st',
    run_macro sizeof_ulong s "CPU_SET" [cpu; set] st = Some (VVoid, st') ∧
    (∀ b, mem st' !! b = mem st !! b) ∧
    (∀ a n, (∀ k, 0 ≤ k < n → mem st !! (a + k) = Some 0) →
            (∀ k, 0 ≤ k < n → mem st' !! (a + k) = Some 0)).
Proof.
  intros H. exists st. split; [by apply run_CPU_SET|]. by split.
Qed.

(** Index 3 and a set whose first bytes are zero. *)
Lemma cpu_set_alters_no_byte_witness :
  let s := Nginx.wasm_compat_h skip skip start in
  let st := {| vars := {[ "p" := VPtr 100 ]};
               mem := {[ 100 := 0; 101 := 0; 102 := 0; 103 := 0 ]} |} in
  ∃ st',
    run_macro 4 s "CPU_SET" [ ⟦ 3 ⟧; ⟦ "p" ⟧ ] st = Some (VVoid, st') ∧
    (∀ b, mem st' !! b = mem st !! b) ∧
    (∀ a n, (∀ k, 0 ≤ k < n → mem st !! (a + k) = Some 0) →
            (∀ k, 0 ≤ k < n → mem st' !! (a + k) = Some 0)).
Proof.
  intros s st. apply (cpu_set_alters_no_byte 4 s ⟦ 3 ⟧ ⟦ "p" ⟧ st).
  reflexivity.
Defined.

(** The interpreter does write where the program writes: [CPU_ZERO(p)] on
    a set of 128 bytes of ones at address 100 (4-byte [unsigned long])
    clears them and nothing else, and [CPU_SET(3, p)] after it keeps them
    clear. *)
Example cpu_zero_then_cpu_set :
  let s := Nginx.wasm_compat_h skip skip start in
  let ones := {| vars := {[ "p" := VPtr 100 ]};
                 mem := list_to_map
                          ((λ k, (100 + Z.of_nat k, 255)) <$> seq 0 130) |} in
  let zeros := {| vars := {[ "p" := VPtr 100 ]};
                  mem := list_to_map
                           (((λ k, (100 + Z.of_nat k, 0)) <$> seq 0 128) ++
                            [(228, 255); (229, 255)]) |} in
  run_macro 4 s "CPU_ZERO" [ ⟦ "p" ⟧ ] ones = Some (VPtr 100, zeros) ∧
  run_macro 4 s "CPU_SET" [ ⟦ 3 ⟧; ⟦ "p" ⟧ ] zeros = Some (VVoid, zeros).
Proof. split; vm_compute; reflexivity. Qed.

(** C6: where [CPU_ISSET] is the macro of the shim, [CPU_ISSET(cpu, set)]
    has the value 0, which is false, for any index expression, any set
    expression and any state of the memory. *)
Theorem cpu_isset_is_false (sizeof_ulong : Z) (s : cpp)
    (cpu set : list token) (st : cstate) :
  macros s !! "CPU_ISSET" = Some Nginx.CPU_ISSET →
  ∃ v st',
    run_macro sizeof_ulong s "CPU_ISSET" [cpu; set] st = Some (v, st') ∧
    v = VInt 0 ∧ truthy v = false.
Proof.
  intros H. exists (VInt 0), st. split; [by apply run_CPU_ISSET|]. by split.
Qed.

(** The bytes of the set are all ones, the answer is still 0. *)
Lemma cpu_isset_is_false_witness :
  let s := Nginx.wasm_compat_h skip skip start in
  let st := {| vars := {[ "p" := VPtr 100 ]};
               mem := list_to_map
                        ((λ k, (100 + Z.of_nat k, 255)) <$> seq 0 128) |} in
  ∃ v st',
    run_macro 4 s "CPU_ISSET" [ ⟦ 3 ⟧; ⟦ "p" ⟧ ] st = Some (v, st') ∧
    v = VInt 0 ∧ truthy v = false.
Proof.
  intros s st. apply (cpu_isset_is_false 4 s ⟦ 3 ⟧ ⟦ "p" ⟧ st). reflexivity.
Defined.

(** C10: where [CPU_SET] and [CPU_ISSET] are the macros of the shim, the
    expansion of an invocation contains no token of its arguments, whatever
    the arguments are; so the invocation evaluates in every state, without
    a fault, to [void] and to 0, and the state after it, variables and
    memory, is the state before it.  There is no condition on the index. *)
Theorem affinity_macros_discard_arguments (sizeof_ulong : Z) (s : cpp)
    (cpu set : list token) (st : cstate) :
  macros s !! "CPU_SET" = Some Nginx.CPU_SET →
  macros s !! "CPU_ISSET" = Some Nginx.CPU_ISSET →
  invoke (macros s) "CPU_SET" [cpu; set]
    = Some ⟦ LParen; LParen; "void"; RParen; 0; RParen ⟧ ∧
  invoke (macros s) "CPU_ISSET" [cpu; set] = Some ⟦ LParen; 0; RParen ⟧ ∧
  run_macro sizeof_ulong s "CPU_SET" [cpu; set] st = Some (VVoid, st) ∧
  run_macro sizeof_ulong s "CPU_ISSET" [cpu; set] st = Some (VInt 0, st).
Proof.
  intros H1 H2. repeat split.
  - by apply invoke_CPU_SET.
  - by apply invoke_CPU_ISSET.
  - by apply run_CPU_SET.
  - by apply run_CPU_ISSET.
Qed.

(** An index expression with a side effect, [i++], and a set expression
    that faults, [*(char * )0]: evaluated on their own the first changes
    [i] and the second has no result; as arguments of the two macros they
    are not evaluated. *)
Lemma affinity_macros_discard_arguments_witness :
  let s := Nginx.wasm_compat_h skip skip start in
  let cpu := ⟦ "i"; PlusPlus ⟧ in
  let set := ⟦ Star; LParen; "char"; Star; RParen; 0 ⟧ in
  let st := {| vars := {[ "i" := VInt (-1) ]}; mem := ∅ |} in
  (snd <$> run (sizeof_type 4 (decls s)) cpu st)
    = Some {| vars := {[ "i" := VInt 0 ]}; mem := ∅ |} ∧
  run (sizeof_type 4 (decls s)) set st = None ∧
  run_macro 4 s "CPU_SET" [cpu; set] st = Some (VVoid, st) ∧
  run_macro 4 s "CPU_ISSET" [cpu; set] st = Some (VInt 0, st).
Proof.
  intros s cpu set st.
  destruct (affinity_macros_discard_arguments 4 s cpu set st eq_refl eq_refl)
    as (_ & _ & H1 & H2).
  split; [reflexivity|]. split; [reflexivity|]. split; [exact H1 | exact H2].
Defined.

(** * The rest of the headers *)

(** ** The macro names a header does not touch *)

Lemma not_elem_of_cons_ne (n m : string) (l : list string) :
  n ∉ m :: l → m ≠ n ∧ n ∉ l.
Proof. rewrite not_elem_of_cons. intros [H1 H2]. split; [congruence | done]. Qed.

(** Turns [n ∉ [m1; ..; mk]] into the hypotheses [mi ≠ n]. *)
Ltac split_names H :=
  repeat (apply not_elem_of_cons_ne in H as [? H]).

(** X1: the shell header has directives for its include guard and the three
    legacy names only: every other macro name is after the inclusion what
    it was before, whatever the state before, given that [<sys/stat.h>]
    leaves the name. *)
Theorem shell_header_leaves_other_names (sys_stat_h : directive) (n : string)
    (s : cpp) :
  n ∉ bash_names →
  leaves sys_stat_h n →
  macros (Bash.wasm_compat_h sys_stat_h s) !! n = macros s !! n.
Proof.
  intros Hn Hsys. unfold bash_names in Hn. split_names Hn.
  assert (L : leaves (Bash.wasm_compat_h sys_stat_h) n)
    by (unfold Bash.wasm_compat_h; eauto 30 with pp).
  apply L.
Qed.

Lemma shell_header_leaves_other_names_witness :
  let s := define "__wasi__" (ObjLike ⟦ 1 ⟧)
             (define "PATH_MAX" (ObjLike ⟦ 4096 ⟧) start) in
  macros (Bash.wasm_compat_h skip s) !! "PATH_MAX" = Some (ObjLike ⟦ 4096 ⟧).
Proof.
  intros s.
  apply (shell_header_leaves_other_names skip "PATH_MAX" s).
  - unfold bash_names. by repeat (apply not_elem_of_cons; split; [done|]);
      apply not_elem_of_nil.
  - intros t. reflexivity.
Defined.

(** X2: the server header has directives for eleven macro names: every other
    name is after the inclusion what it was before, whatever the state
    before, given that [<sched.h>] and [<string.h>] leave the name. *)
Theorem server_header_leaves_other_names (sched_h string_h : directive)
    (n : string) (s : cpp) :
  n ∉ nginx_names →
  leaves sched_h n → leaves string_h n →
  macros (Nginx.wasm_compat_h sched_h string_h s) !! n = macros s !! n.
Proof.
  intros Hn Hsched Hstring. unfold nginx_names in Hn. split_names Hn.
  assert (L1 : leaves Nginx.sendfile_fallback n) by frame.
  assert (L2 : leaves Nginx.stat_time_fields n) by frame.
  assert (L3 : leaves Nginx.cpu_affinity n) by frame.
  assert (L4 : leaves Nginx.crypt_stub n) by frame.
  assert (L : leaves (Nginx.wasm_compat_h sched_h string_h) n)
    by (unfold Nginx.wasm_compat_h; eauto 20 with pp).
  apply L.
Qed.

Lemma server_header_leaves_other_names_witness :
  let s := define "NGX_HAVE_EPOLL" (ObjLike ⟦ 1 ⟧) start in
  macros (Nginx.wasm_compat_h skip skip s) !! "NGX_HAVE_EPOLL"
  = Some (ObjLike ⟦ 1 ⟧).
Proof.
  intros s.
  apply (server_header_leaves_other_names skip skip "NGX_HAVE_EPOLL" s).
  - unfold nginx_names. by repeat (apply not_elem_of_cons; split; [done|]);
      apply not_elem_of_nil.
  - intros t. reflexivity.
  - intros t. reflexivity.
Defined.

(** ** The shell header on the runtime *)

(** X3: on the first inclusion of the shell header with [__wasi__] defined, a
    legacy name that is a macro after [<sys/stat.h>] has been included
    keeps the definition it has there, and one that is not a macro becomes
    the alias of the seconds of its time field. *)
Theorem shell_header_keeps_existing_names (sys_stat_h : directive) (s : cpp)
    (n f : string) :
  defined "WASM_COMPAT_H" s = false →
  defined "__wasi__" s = true →
  (n, f) ∈ legacy_names →
  macros (Bash.wasm_compat_h sys_stat_h s) !! n =
  Some (default (seconds_of f)
          (macros (sys_stat_h (define "WASM_COMPAT_H" (ObjLike ⟦ ⟧) s)) !! n)).
Proof.
  intros Hg Hw Hn. rewrite bash_first_inclusion by done.
  apply (stat_time_fields_lookup _ _ _ Hn).
Qed.

(** A [<sys/stat.h>] that has [st_mtime] as a macro of its own and not the
    other two names. *)
Lemma shell_header_keeps_existing_names_witness :
  let sys_stat_h := define "st_mtime" (ObjLike ⟦ "st_mtimespec"; Dot; "tv_sec" ⟧) in
  let s := define "__wasi__" (ObjLike ⟦ 1 ⟧) start in
  macros (Bash.wasm_compat_h sys_stat_h s) !! "st_mtime"
    = Some (ObjLike ⟦ "st_mtimespec"; Dot; "tv_sec" ⟧) ∧
  macros (Bash.wasm_compat_h sys_stat_h s) !! "st_ctime"
    = Some (seconds_of "st_ctim").
Proof.
  intros sys_stat_h s. split.
  - apply (shell_header_keeps_existing_names sys_stat_h s "st_mtime" "st_mtim");
      [reflexivity | reflexivity | repeat constructor].
  - apply (shell_header_keeps_existing_names sys_stat_h s "st_ctime" "st_ctim");
      [reflexivity | reflexivity | repeat constructor].
Defined.

(** ** Declarations and diagnostics *)

Lemma diags_define_absent n x s :
  defined n s = false → diags (define n x s) = diags s.
Proof. intros H. apply defined_false in H. simpl. by rewrite H. Qed.

Lemma diags_define_if_absent n x s : diags (ifndef n (define n x) s) = diags s.
Proof.
  unfold ifndef. destruct (defined n s) eqn:E; [done|].
  by apply diags_define_absent.
Qed.

Lemma stat_time_fields_silent : silent Nginx.stat_time_fields.
Proof.
  intros s. unfold Nginx.stat_time_fields, andthen.
  by rewrite !decls_define_if_absent, !diags_define_if_absent.
Qed.

Lemma sendfile_fallback_silent : silent Nginx.sendfile_fallback.
Proof.
  intros s. unfold Nginx.sendfile_fallback, andthen, ifdef.
  by repeat (match goal with |- context [defined ?n ?t] =>
                               destruct (defined n t) end).
Qed.

Lemma bash_repeated_inclusion sys_stat_h s :
  defined "WASM_COMPAT_H" s = true → Bash.wasm_compat_h sys_stat_h s = s.
Proof. intros H. unfold Bash.wasm_compat_h, ifndef at 1. by rewrite H. Qed.

(** X4: the shell header emits no declaration, and each of its [#define]s
    stands under the [#ifndef] of its name: for every state before the
    inclusion, the declarations and the diagnostics after it are those
    before it, given that [<sys/stat.h>] adds none. *)
Theorem shell_header_silent (sys_stat_h : directive) :
  silent sys_stat_h → silent (Bash.wasm_compat_h sys_stat_h).
Proof.
  intros Hsys s.
  destruct (defined "WASM_COMPAT_H" s) eqn:Hg.
  - by rewrite bash_repeated_inclusion.
  - destruct (defined "__wasi__" s) eqn:Hw.
    + rewrite bash_first_inclusion by done.
      destruct (stat_time_fields_silent
                  (sys_stat_h (define "WASM_COMPAT_H" (ObjLike ⟦ ⟧) s)))
        as [-> ->].
      destruct (Hsys (define "WASM_COMPAT_H" (ObjLike ⟦ ⟧) s)) as [-> ->].
      split; [done|]. by apply diags_define_absent.
    + rewrite bash_without_wasi, Hg by done.
      split; [done|]. by apply diags_define_absent.
Qed.

(** A translation unit in which the three names are macros already, with
    other definitions than the header's. *)
Lemma shell_header_silent_witness :
  let s := define "st_atime" (ObjLike ⟦ "st_atimespec"; Dot; "tv_sec" ⟧)
             (define "__wasi__" (ObjLike ⟦ 1 ⟧) start) in
  decls (Bash.wasm_compat_h skip s) = [] ∧
  diags (Bash.wasm_compat_h skip s) = [].
Proof.
  intros s. apply (shell_header_silent skip).
  intros t. split; reflexivity.
Defined.

(** Lines 26 to 64 of the server header: the guard, the opening of
    [extern "C"], the sendfile block and the stat block. *)
Lemma nginx_prefix s :
  defined "_WASM_COMPAT_H" s = false →
  let x := Nginx.stat_time_fields
             (Nginx.sendfile_fallback
                (ifdef "__cplusplus" (emit ExternCOpen)
                   (define "_WASM_COMPAT_H" (ObjLike ⟦ ⟧) s))) in
  decls x = decls s ++ (if defined "__cplusplus" s then [ExternCOpen] else [])
  ∧ diags x = diags s.
Proof.
  intros Hg x. subst x.
  destruct (stat_time_fields_silent
              (Nginx.sendfile_fallback
                 (ifdef "__cplusplus" (emit ExternCOpen)
                    (define "_WASM_COMPAT_H" (ObjLike ⟦ ⟧) s)))) as [-> ->].
  destruct (sendfile_fallback_silent
              (ifdef "__cplusplus" (emit ExternCOpen)
                 (define "_WASM_COMPAT_H" (ObjLike ⟦ ⟧) s))) as [-> ->].
  unfold ifdef.
  rewrite (leaves_defined (define "_WASM_COMPAT_H" (ObjLike ⟦ ⟧)) "__cplusplus" s)
    by eauto with pp.
  destruct (defined "__cplusplus" s).
  - split; [done|]. cbn [diags emit declares]. by apply diags_define_absent.
  - split; [by rewrite app_nil_r|]. by apply diags_define_absent.
Qed.

Lemma cpu_affinity_diags p :
  diags (Nginx.cpu_affinity p) =
  diags p ++
  (if negb (defined "CPU_SETSIZE" p) && declared "cpu_set_t" (decls p)
   then [Redeclared "cpu_set_t"] else []).
Proof.
  unfold Nginx.cpu_affinity, andthen. rewrite !diags_define_if_absent.
  unfold Nginx.cpu_set_type, ifndef.
  destruct (defined "CPU_SETSIZE" p) eqn:E; [by rewrite app_nil_r|].
  unfold andthen, typedef_struct. cbn [diags emit declares negb andb].
  rewrite diags_define_absent by done.
  change (decls (define "CPU_SETSIZE" (ObjLike ⟦ 1024 ⟧) p)) with (decls p).
  destruct (declared "cpu_set_t" (decls p)); [done | by rewrite app_nil_r].
Qed.

Lemma crypt_stub_diags q :
  diags (Nginx.crypt_stub q) =
  diags q ++
  (if negb (defined "HAVE_CRYPT" q) && negb (defined "_CRYPT_H" q)
      && declared "crypt" (decls q)
   then [Redeclared "crypt"] else []).
Proof.
  unfold Nginx.crypt_stub, if_. cbn [holds].
  destruct (defined "HAVE_CRYPT" q) eqn:E1; [by rewrite app_nil_r|].
  destruct (defined "_CRYPT_H" q) eqn:E2; [by rewrite app_nil_r|].
  cbn [negb andb]. unfold andthen.
  rewrite diags_define_absent
    by (by rewrite (leaves_defined (emit Nginx.crypt) "HAVE_CRYPT" q)
          by eauto with pp).
  cbn [diags emit declares Nginx.crypt].
  destruct (declared "crypt" (decls q)); [done | by rewrite app_nil_r].
Qed.

Lemma extern_c_close_diags r :
  diags (ifdef "__cplusplus" (emit ExternCClose) r) = diags r.
Proof. unfold ifdef. by destruct (defined "__cplusplus" r). Qed.

(** The diagnostics recorded on the first inclusion of the server header:
    none for a macro, and the redeclarations among the items of the
    model. *)
Lemma first_inclusion_diags (sched_h string_h : directive) (s : cpp) :
  defined "_WASM_COMPAT_H" s = false →
  quiet sched_h → quiet string_h →
  let p := Nginx.upto_includes sched_h string_h s in
  let q := Nginx.cpu_affinity p in
  diags (Nginx.wasm_compat_h sched_h string_h s)
  = diags s ++ redeclarations p q.
Proof.
  intros Hg Hsched Hstring p q.
  assert (Hp : diags p = diags s).
  { subst p. unfold Nginx.upto_includes, andthen.
    rewrite Hstring, Hsched. by apply nginx_prefix. }
  rewrite first_inclusion by done. fold p. unfold andthen. fold q.
  rewrite extern_c_close_diags, crypt_stub_diags. subst q.
  rewrite cpu_affinity_diags, Hp. unfold redeclarations.
  by rewrite <- app_assoc.
Qed.

(** X5: every [#define] of the server header stands under a test that its
    name is not a macro ([#ifndef] of the name, or [!defined(HAVE_CRYPT)]
    for [HAVE_CRYPT]), so the header never redefines a macro: for every
    state before the inclusion, and with system headers that add no
    diagnostics, the macro redefinitions reported after the inclusion are
    those reported before it. *)
Theorem server_header_never_redefines (sched_h string_h : directive)
    (s : cpp) :
  quiet sched_h → quiet string_h →
  macro_redefinitions (diags (Nginx.wasm_compat_h sched_h string_h s))
  = macro_redefinitions (diags s).
Proof.
  intros Hsched Hstring.
  destruct (defined "_WASM_COMPAT_H" s) eqn:Hg.
  - by rewrite repeated_inclusion.
  - rewrite first_inclusion_diags by done.
    unfold macro_redefinitions, redeclarations. rewrite !flat_map_app.
    repeat match goal with
           | |- context [if ?c then _ else _] => destruct c
           end;
      cbn [flat_map app]; by rewrite app_nil_r.
Qed.

(** A translation unit in which six of the header's names are macros
    already, with other definitions than the header's: no redefinition is
    reported. *)
Lemma server_header_never_redefines_witness :
  let s := define "st_atime" (ObjLike ⟦ "st_atimespec"; Dot; "tv_sec" ⟧)
             (define "CPU_SETSIZE" (ObjLike ⟦ 64 ⟧)
                (define "CPU_ZERO" (FunLike ["s"] ⟦ 0 ⟧)
                   (define "CPU_SET" (FunLike ["c"; "s"] ⟦ 1 ⟧)
                      (define "CPU_ISSET" (FunLike ["c"; "s"] ⟦ 1 ⟧)
                         (define "HAVE_CRYPT" (ObjLike ⟦ 0 ⟧) start))))) in
  macro_redefinitions (diags (Nginx.wasm_compat_h skip skip s)) = [].
Proof.
  intros s.
  apply (server_header_never_redefines skip skip s).
  - intros t. reflexivity.
  - intros t. reflexivity.
Defined.

(** ** The password-hash stub when crypt is announced *)

(** X6: on the first inclusion of the server header with [HAVE_CRYPT] or
    [_CRYPT_H] defined before it (and left alone by [<sched.h>] and
    [<string.h>]), the header defines no function: after the system
    headers it adds at most the type [cpu_set_t] and the closing of
    [extern "C"]; and [HAVE_CRYPT] is what it was, so with only [_CRYPT_H]
    defined it stays undefined. *)
Theorem crypt_stub_stands_aside (sched_h string_h : directive) (s : cpp) :
  defined "_WASM_COMPAT_H" s = false →
  untouched sched_h ["HAVE_CRYPT"; "_CRYPT_H"] →
  untouched string_h ["HAVE_CRYPT"; "_CRYPT_H"] →
  defined "HAVE_CRYPT" s = true ∨ defined "_CRYPT_H" s = true →
  let p := Nginx.upto_includes sched_h string_h s in
  let s' := Nginx.wasm_compat_h sched_h string_h s in
  macros s' !! "HAVE_CRYPT" = macros s !! "HAVE_CRYPT" ∧
  ∃ tail, decls s' = decls p ++ tail ∧
          ∀ it, it ∈ tail → it = Nginx.cpu_set_t ∨ it = ExternCClose.
Proof.
  intros Hg Hsched Hstring Hdef p s'.
  use_untouched Hsched "HAVE_CRYPT". use_untouched Hsched "_CRYPT_H".
  use_untouched Hstring "HAVE_CRYPT". use_untouched Hstring "_CRYPT_H".
  subst s'. rewrite first_inclusion by done. fold p.
  set (q := Nginx.cpu_affinity p).
  assert (F1 : leaves (Nginx.upto_includes sched_h string_h >>> Nginx.cpu_affinity)
                 "HAVE_CRYPT") by frame.
  assert (F2 : leaves (Nginx.upto_includes sched_h string_h >>> Nginx.cpu_affinity)
                 "_CRYPT_H") by frame.
  assert (Q1 : defined "HAVE_CRYPT" q = defined "HAVE_CRYPT" s)
    by apply (leaves_defined _ _ s F1).
  assert (Q2 : defined "_CRYPT_H" q = defined "_CRYPT_H" s)
    by apply (leaves_defined _ _ s F2).
  assert (R : Nginx.crypt_stub q = q).
  { unfold Nginx.crypt_stub, if_. cbn [holds]. rewrite Q1, Q2.
    destruct Hdef as [-> | ->]; [done|].
    by destruct (defined "HAVE_CRYPT" s). }
  change ((Nginx.cpu_affinity >>> Nginx.crypt_stub >>>
           ifdef "__cplusplus" (emit ExternCClose)) p)
    with (ifdef "__cplusplus" (emit ExternCClose) (Nginx.crypt_stub q)).
  rewrite R. split.
  - rewrite (leaves_ifdef "__cplusplus" (emit ExternCClose) "HAVE_CRYPT")
      by eauto with pp.
    apply (F1 s).
  - destruct (cpu_affinity_spec p) as (_ & H2 & _). fold q in H2.
    unfold ifdef. destruct (defined "__cplusplus" q).
    + exists ((if defined "CPU_SETSIZE" p then [] else [Nginx.cpu_set_t])
              ++ [ExternCClose]).
      split; [cbn [decls emit]; by rewrite H2, <- app_assoc|].
      intros it. rewrite elem_of_app.
      destruct (defined "CPU_SETSIZE" p);
        rewrite ?elem_of_cons, !elem_of_nil; tauto.
    + exists (if defined "CPU_SETSIZE" p then [] else [Nginx.cpu_set_t]).
      split; [done|]. intros it.
      destruct (defined "CPU_SETSIZE" p);
        rewrite ?elem_of_cons, !elem_of_nil; tauto.
Qed.

(** Only [_CRYPT_H] is defined, as after [#include <crypt.h>]. *)
Lemma crypt_stub_stands_aside_witness :
  let s := define "_CRYPT_H" (ObjLike ⟦ 1 ⟧) start in
  let s' := Nginx.wasm_compat_h skip skip s in
  macros s' !! "HAVE_CRYPT" = None ∧
  ∃ tail, decls s' = tail ∧
          ∀ it, it ∈ tail → it = Nginx.cpu_set_t ∨ it = ExternCClose.
Proof.
  intros s s'.
  apply (crypt_stub_stands_aside skip skip s).
  - reflexivity.
  - repeat constructor.
  - repeat constructor.
  - right. reflexivity.
Defined.

(** ** The [extern "C"] block *)

Lemma app_self_nil {A} (l k : list A) : l = l ++ k → k = [].
Proof. intros H. apply (app_inv_head l). by rewrite app_nil_r. Qed.

Lemma crypt_stub_decls q :
  decls (Nginx.crypt_stub q) =
  decls q ++
  (if negb (defined "HAVE_CRYPT" q) && negb (defined "_CRYPT_H" q)
   then [Nginx.crypt] else []).
Proof.
  unfold Nginx.crypt_stub, if_. cbn [holds].
  destruct (negb (defined "HAVE_CRYPT" q) && negb (defined "_CRYPT_H" q));
    [done | by rewrite app_nil_r].
Qed.

(** X7: the closing of [extern "C"] is under the same test as its opening,
    and nothing in the header defines or undefines [__cplusplus].  On the
    first inclusion, with system headers that leave [__cplusplus] and keep
    the declarations made before them, the declarations after the inclusion
    are those before it and then: what [<sched.h>] adds ([l1]), what
    [<string.h>] adds ([l2]) and the header's own [cpu_set_t] and [crypt]
    where their blocks apply; in a C++ translation unit with the opening
    before them and the closing after them, in a C translation unit with
    neither.  [x] is the state before the two [#include]s (the header up to
    line 64), [p] the state after them and [q] the state after the affinity
    block. *)
Theorem extern_c_brackets (sched_h string_h : directive) (s : cpp) :
  defined "_WASM_COMPAT_H" s = false →
  leaves sched_h "__cplusplus" → leaves string_h "__cplusplus" →
  appends sched_h → appends string_h →
  let x := Nginx.upto_includes skip skip s in
  let p := Nginx.upto_includes sched_h string_h s in
  let q := Nginx.cpu_affinity p in
  let own :=
    (if defined "CPU_SETSIZE" p then [] else [Nginx.cpu_set_t]) ++
    (if negb (defined "HAVE_CRYPT" q) && negb (defined "_CRYPT_H" q)
     then [Nginx.crypt] else []) in
  ∃ l1 l2,
    decls (sched_h x) = decls x ++ l1 ∧
    decls p = decls (sched_h x) ++ l2 ∧
    decls (Nginx.wasm_compat_h sched_h string_h s) =
    decls s ++ (if defined "__cplusplus" s
                then ExternCOpen :: l1 ++ l2 ++ own ++ [ExternCClose]
                else l1 ++ l2 ++ own).
Proof.
  intros Hg Lsched Lstring Asched Astring x p q own.
  assert (Hp : p = string_h (sched_h x)) by reflexivity.
  destruct (nginx_prefix s Hg) as [Hx _].
  change (Nginx.stat_time_fields
            (Nginx.sendfile_fallback
               (ifdef "__cplusplus" (emit ExternCOpen)
                  (define "_WASM_COMPAT_H" (ObjLike ⟦ ⟧) s)))) with x in Hx.
  destruct (Asched x) as [l1 H1].
  destruct (Astring (sched_h x)) as [l2 H2]. rewrite <- Hp in H2.
  exists l1, l2. split; [done|]. split; [done|].
  destruct (cpu_affinity_spec p) as (_ & H3 & _). fold q in H3.
  assert (H4 := crypt_stub_decls q).
  set (r := Nginx.crypt_stub q) in *.
  assert (Hr : defined "__cplusplus" r = defined "__cplusplus" s).
  { subst r q. rewrite Hp. subst x.
    unfold Nginx.upto_includes, andthen, skip. by do 8 peel. }
  rewrite first_inclusion by done. fold p. unfold andthen. fold q. fold r.
  unfold ifdef. rewrite Hr. subst own.
  destruct (defined "__cplusplus" s).
  - cbn [decls emit]. rewrite H4, H3, H2, H1, Hx.
    rewrite <- !app_assoc. reflexivity.
  - rewrite H4, H3, H2, H1, Hx, app_nil_r.
    by rewrite <- !app_assoc.
Qed.

(** A C++ translation unit and a C translation unit, with system headers
    that declare nothing. *)
Lemma extern_c_brackets_witness :
  decls (Nginx.wasm_compat_h skip skip
           (define "__cplusplus" (ObjLike ⟦ 201703 ⟧) start))
    = [ExternCOpen; Nginx.cpu_set_t; Nginx.crypt; ExternCClose] ∧
  decls (Nginx.wasm_compat_h skip skip start)
    = [Nginx.cpu_set_t; Nginx.crypt].
Proof.
  split.
  - destruct (extern_c_brackets skip skip
                (define "__cplusplus" (ObjLike ⟦ 201703 ⟧) start))
      as (l1 & l2 & H1 & H2 & H3).
    + reflexivity.
    + intros t. reflexivity.
    + intros t. reflexivity.
    + intros t. exists []. symmetry. apply app_nil_r.
    + intros t. exists []. symmetry. apply app_nil_r.
    + apply app_self_nil in H1. apply app_self_nil in H2.
      rewrite H3, H1, H2. reflexivity.
  - destruct (extern_c_brackets skip skip start)
      as (l1 & l2 & H1 & H2 & H3).
    + reflexivity.
    + intros t. reflexivity.
    + intros t. reflexivity.
    + intros t. exists []. symmetry. apply app_nil_r.
    + intros t. exists []. symmetry. apply app_nil_r.
    + apply app_self_nil in H1. apply app_self_nil in H2.
      rewrite H3, H1, H2. reflexivity.
Defined.

(** ** CPU affinity shim: clearing a set *)

Lemma keyword_false_eqb x k :
  keyword x = false →
  k ∈ ["void"; "char"; "unsigned"; "long"; "const"; "sizeof"; "return";
       "static"; "inline"; "typedef"; "struct"] →
  String.eqb x k = false.
Proof.
  intros Hx Hk. apply String.eqb_neq. intros ->.
  unfold keyword in Hx. by rewrite bool_decide_eq_false in Hx.
Qed.

Lemma parse_type_identifier x r :
  keyword x = false → parse_type false (TId x :: r) = None.
Proof.
  intros Hx. unfold parse_type, parse_base.
  rewrite (keyword_false_eqb x "const"), (keyword_false_eqb x "void"),
    (keyword_false_eqb x "char"), (keyword_false_eqb x "unsigned"), Hx;
    first [done | repeat constructor].
Qed.

Lemma parse_expr_S f ts :
  parse_expr (S f) ts = ('(e, r) ← parse_unary f ts; parse_tail f e r).
Proof. reflexivity. Qed.

Lemma parse_args_S f ts :
  parse_args (S f) ts =
  ('(e, r) ← parse_expr f ts;
   match r with
   | TP Comma :: r' => '(es, r'') ← parse_args f r'; Some (ECons e es, r'')
   | TP RParen :: r' => Some (ECons e ENil, r')
   | _ => None
   end).
Proof. reflexivity. Qed.

Lemma parse_unary_memset f r :
  parse_unary (S f) (TId "memset" :: TP LParen :: TP LParen :: r) =
  ('(args, r') ← parse_args f (TP LParen :: r); Some (ECall "memset" args, r')).
Proof. reflexivity. Qed.

Lemma parse_unary_paren_identifier f x r :
  keyword x = false →
  parse_unary (S (S (S f))) (TP LParen :: TId x :: TP RParen :: TP Comma :: r)
  = Some (EVar x, TP Comma :: r).
Proof.
  intros Hx.
  change (parse_unary (S (S (S f)))
            (TP LParen :: TId x :: TP RParen :: TP Comma :: r))
    with (match parse_type false (TId x :: TP RParen :: TP Comma :: r) with
          | Some (t, r') =>
              r'' ← expect RParen r';
              '(e, r3) ← parse_unary (S (S f)) r'';
              Some (ECast t e, r3)
          | None =>
              '(e, r') ← parse_expr (S (S f))
                           (TId x :: TP RParen :: TP Comma :: r);
              r'' ← expect RParen r';
              Some (e, r'')
          end).
  rewrite parse_type_identifier by done.
  rewrite parse_expr_S.
  change (parse_unary (S f) (TId x :: TP RParen :: TP Comma :: r))
    with (if String.eqb x "sizeof"
          then r1 ← expect LParen (TP RParen :: TP Comma :: r);
               '(t, r2) ← parse_type true r1;
               r3 ← expect RParen r2;
               Some (ESizeof t, r3)
          else if keyword x then None
               else Some (EVar x, TP RParen :: TP Comma :: r)).
  rewrite (keyword_false_eqb x "sizeof"), Hx by first [done | repeat constructor].
  reflexivity.
Qed.

Lemma parse_cpu_zero x :
  keyword x = false →
  parse ⟦ "memset"; LParen; LParen; x; RParen; Comma; 0; Comma;
          "sizeof"; LParen; "cpu_set_t"; RParen; RParen ⟧
  = Some (ECall "memset"
            (ECons (EVar x)
               (ECons (EInt 0)
                  (ECons (ESizeof (TNamed "cpu_set_t")) ENil)))).
Proof.
  intros Hx. unfold parse.
  change (2 * length _ + 2)%nat with 28%nat.
  rewrite parse_expr_S, parse_unary_memset, parse_args_S, parse_expr_S.
  rewrite parse_unary_paren_identifier by done.
  reflexivity.
Qed.

(** [memset] on allocated memory. *)
Lemma memset_bytes_allocated n a c m :
  (∀ k, 0 ≤ k < Z.of_nat n → is_Some (m !! (a + k))) →
  ∃ m', memset_bytes n a c m = Some m' ∧
        (∀ k, 0 ≤ k < Z.of_nat n → m' !! (a + k) = Some (c `mod` 256)) ∧
        (∀ b, ¬ (a ≤ b < a + Z.of_nat n) → m' !! b = m !! b).
Proof.
  revert a m. induction n as [|n IH]; intros a m Hall.
  - exists m. split; [done|]. split; [intros k Hk; lia | done].
  - destruct (Hall 0 ltac:(lia)) as [v Hv]. rewrite Z.add_0_r in Hv.
    cbn [memset_bytes]. rewrite Hv.
    destruct (IH (a + 1) (<[a := c `mod` 256]> m)) as (m' & Hm' & Hin & Hout).
    { intros k Hk. rewrite lookup_insert_ne by lia.
      replace (a + 1 + k) with (a + (k + 1)) by lia. apply Hall. lia. }
    exists m'. split; [done|]. split.
    + intros k Hk. destruct (decide (k = 0)) as [->|Hk0].
      * rewrite Z.add_0_r, Hout by lia. apply lookup_insert_eq.
      * replace (a + k) with (a + 1 + (k - 1)) by lia. apply Hin. lia.
    + intros b Hb. rewrite Hout by lia. apply lookup_insert_ne. lia.
Qed.

(** [sizeof(cpu_set_t)] for the type of the shim: 128 bytes, whatever the
    size of [unsigned long] that divides them. *)
Lemma sizeof_cpu_set_t w tu :
  typedef_lookup "cpu_set_t" tu
  = Some [("__bits",
           TArray TULong ⟦ 1024; Slash; LParen; 8; Star;
                           "sizeof"; LParen; "unsigned"; "long";
                           RParen; RParen ⟧)] →
  0 < w → (8 * w | 1024) →
  sizeof_type w tu (TNamed "cpu_set_t") = Some 128.
Proof.
  intros Htu Hw [c Hc]. unfold sizeof_type. rewrite Htu.
  cbn [mbind option_bind sizeof_fields sizeof_obj snd].
  rewrite array_len_bits by done. cbn [mbind option_bind]. f_equal.
  rewrite Hc, Z.div_mul by lia. lia.
Qed.

(** The expansion of [CPU_ZERO(set)]: the argument once, in parentheses. *)
Lemma invoke_CPU_ZERO tbl set :
  tbl !! "CPU_ZERO" = Some Nginx.CPU_ZERO →
  invoke tbl "CPU_ZERO" [set]
  = Some (TId "memset" :: TP LParen :: TP LParen ::
          set ++ ⟦ RParen; Comma; 0; Comma;
                   "sizeof"; LParen; "cpu_set_t"; RParen; RParen ⟧).
Proof. intros H. unfold invoke. rewrite H. reflexivity. Qed.

(** X8: where [CPU_ZERO] is the macro of the shim and [cpu_set_t] its type,
    [CPU_ZERO(x)], for a variable [x] that points to 128 allocated bytes,
    evaluates to the pointer, sets those 128 bytes to zero and leaves every
    other byte and every variable as it was.  The 128 bytes are
    [sizeof(cpu_set_t)] for every size of [unsigned long] that, times 8,
    divides 1024.  The names in the expansion mean what they mean in the
    header: [x], [memset] and [cpu_set_t] are not macros, and no variable
    in scope is called [memset] or [cpu_set_t] (so [x] is neither). *)
Theorem cpu_zero_clears_the_set (sizeof_ulong : Z) (s : cpp) (x : string)
    (a : Z) (st : cstate) :
  macros s !! "CPU_ZERO" = Some Nginx.CPU_ZERO →
  typedef_lookup "cpu_set_t" (decls s)
  = Some [("__bits",
           TArray TULong ⟦ 1024; Slash; LParen; 8; Star;
                           "sizeof"; LParen; "unsigned"; "long";
                           RParen; RParen ⟧)] →
  0 < sizeof_ulong → (8 * sizeof_ulong | 1024) →
  Forall (λ n, macros s !! n = None) [x; "memset"; "cpu_set_t"] →
  Forall (λ n, in_scope n st = false) ["memset"; "cpu_set_t"] →
  keyword x = false →
  vars st !! x = Some (VPtr a) →
  (∀ k, 0 ≤ k < 128 → is_Some (mem st !! (a + k))) →
  ∃ st',
    run_macro sizeof_ulong s "CPU_ZERO" [ ⟦ x ⟧ ] st = Some (VPtr a, st') ∧
    vars st' = vars st ∧
    (∀ k, 0 ≤ k < 128 → mem st' !! (a + k) = Some 0) ∧
    (∀ b, ¬ (a ≤ b < a + 128) → mem st' !! b = mem st !! b).
Proof.
  intros Hm Htu Hw Hdiv _ Hscope Hx Hv Hall.
  assert (S1 : in_scope "memset" st = false)
    by (rewrite Forall_forall in Hscope; apply Hscope; repeat constructor).
  assert (S2 : in_scope "cpu_set_t" st = false)
    by (rewrite Forall_forall in Hscope; apply Hscope; repeat constructor).
  destruct (memset_bytes_allocated 128 a 0 (mem st)) as (m' & Hm' & Hin & Hout).
  { intros k Hk. apply Hall. lia. }
  exists {| vars := vars st; mem := m' |}.
  split; [|split; [done|split]].
  - unfold run_macro. rewrite (invoke_CPU_ZERO _ _ Hm).
    cbn [mbind option_bind app].
    unfold run. rewrite parse_cpu_zero by done.
    cbn [mbind option_bind eval]. rewrite S1.
    cbn [mbind option_bind eval eval_args hidden]. rewrite Hv.
    cbn [mbind option_bind eval eval_args hidden]. rewrite S2.
    cbn [mbind option_bind]. rewrite (sizeof_cpu_set_t _ _ Htu Hw Hdiv).
    cbn [mbind option_bind]. unfold builtin.
    change (String.eqb "memset" "memset") with true. cbn iota.
    destruct (decide (0 ≤ 128)); [|lia].
    change (Z.to_nat 128) with 128%nat. by rewrite Hm'.
  - intros k Hk. apply (Hin k). lia.
  - intros b Hb. apply Hout. lia.
Qed.

(** 8-byte [unsigned long]; the set is in 128 bytes of ones from address
    4096 on, with two more bytes after it. *)
Lemma cpu_zero_clears_the_set_witness :
  let s := Nginx.wasm_compat_h skip skip start in
  let st := {| vars := {[ "mask" := VPtr 4096 ]};
               mem := list_to_map ((λ k, (4096 + k, 255)) <$> seqZ 0 130) |} in
  ∃ st',
    run_macro 8 s "CPU_ZERO" [ ⟦ "mask" ⟧ ] st = Some (VPtr 4096, st') ∧
    vars st' = vars st ∧
    (∀ k, 0 ≤ k < 128 → mem st' !! (4096 + k) = Some 0) ∧
    (∀ b, ¬ (4096 ≤ b < 4096 + 128) → mem st' !! b = mem st !! b).
Proof.
  intros s st.
  apply (cpu_zero_clears_the_set 8 s "mask" 4096 st).
  - reflexivity.
  - reflexivity.
  - lia.
  - exists 16. reflexivity.
  - repeat constructor.
  - repeat constructor.
  - reflexivity.
  - reflexivity.
  - intros k Hk.
    assert (Hall : Forall (λ k, is_Some (mem st !! (4096 + k))) (seqZ 0 128))
      by (apply (bool_decide_unpack _); vm_compute; exact I).
    rewrite Forall_forall in Hall. apply Hall, elem_of_seqZ. lia.
Defined.
